(** * PhysicsEngine.js: the rigid-body stepper

    A shallow embedding of [src/PhysicsEngine.js]: the classes [Vec2],
    [Body] and [World], and [PhysicsEngine] with its body bookkeeping
    ([addBody], [removeBody], [clear], [getBodies]) and its lifecycle
    ([init], the [running] flag, the handlers of the game-loop events).
    The DOM and the subscriptions themselves are not part of it.

    - JavaScript numbers are kept abstract: the code is embedded once over
      any arithmetic [Num T], and instantiated at the reals (exact
      arithmetic, for the algebraic properties; rounding and overflow are
      outside it) and at IEEE binary64 (the arithmetic the code runs on,
      with its infinities and NaN). Over any arithmetic there is also its
      checked version, which flags a division by a divisor that tests
      equal to zero.
    - [Body] objects are mutable and are compared by reference
      ([Array.prototype.indexOf]), so a body is a [Handle] into a store
      and [World.bodies] is a list of handles. The [id] field, which
      nothing reads, is left out.
    - [World.step] can raise a [TypeError] (reading a property of
      [undefined]) and calls back into its listeners through
      [dispatchEvent]; both are made explicit by a small state and error
      monad whose state carries a log of the calls made. *)

From Stdlib Require Import PrimFloat.
From Stdlib Require Import List Bool Arith ZArith Lia String.
From Stdlib Require Import Reals Lra.
Import ListNotations.

Set Implicit Arguments.

(** ** Numbers *)

(** The operations of JavaScript numbers that the file uses. [nlt] is [<]
    ([a > b] is [nlt b a]), [nseq] is [===] on numbers, [nmin] is
    [Math.min], [hypot] is [Math.hypot] on two arguments, and the [lit_]
    fields are the numeric literals of the source. *)
Class Num (T : Type) : Type := {
  lit_0 : T;
  lit_1 : T;
  lit_0_2 : T;
  lit_0_9 : T;
  lit_0_1 : T;
  nadd : T -> T -> T;
  nsub : T -> T -> T;
  nmul : T -> T -> T;
  ndiv : T -> T -> T;
  nneg : T -> T;
  hypot : T -> T -> T;
  nmin : T -> T -> T;
  nlt : T -> T -> bool;
  nseq : T -> T -> bool
}.

Declare Scope num_scope.
Delimit Scope num_scope with num.
Infix "+" := nadd : num_scope.
Infix "-" := nsub : num_scope.
Infix "*" := nmul : num_scope.
Infix "/" := ndiv : num_scope.
Notation "- a" := (nneg a) : num_scope.
Infix "<?" := nlt : num_scope.
Infix "===" := nseq (at level 70, no associativity) : num_scope.

(** A reference to a [Body] object. *)
Definition Handle : Type := nat.

Section Engine.

Context {T : Type} {N : Num T}.
Local Open Scope num_scope.

(** [v || d] on a number: [v] when it is truthy (neither zero nor NaN). *)
Definition truthy (v : T) : bool := (v === v) && negb (v === lit_0).

Definition or_default (v : option T) (d : T) : T :=
  match v with
  | Some n => if truthy n then n else d
  | None => d
  end.

(** ** class Vec2 *)

Record Vec2 : Type := mkVec2 { x : T; y : T }.

(** The mutating methods return the new value of [this]; the caller stores
    it back into the field that owns the vector. *)
Definition Vec2_add (this v : Vec2) : Vec2 :=
  mkVec2 (x this + x v) (y this + y v).

Definition Vec2_sub (this v : Vec2) : Vec2 :=
  mkVec2 (x this - x v) (y this - y v).

Definition Vec2_scale (this : Vec2) (s : T) : Vec2 :=
  mkVec2 (x this * s) (y this * s).

Definition Vec2_dot (this v : Vec2) : T :=
  x this * x v + y this * y v.

Definition Vec2_length (this : Vec2) : T :=
  hypot (x this) (y this).

Definition Vec2_normalize (this : Vec2) : Vec2 :=
  let len := Vec2_length this in
  if lit_0 <? len then Vec2_scale this (lit_1 / len) else this.

Definition Vec2_clone (this : Vec2) : Vec2 := mkVec2 (x this) (y this).

Definition Vec2_static_sub (a b : Vec2) : Vec2 :=
  mkVec2 (x a - x b) (y a - y b).

Definition Vec2_static_add (a b : Vec2) : Vec2 :=
  mkVec2 (x a + x b) (y a + y b).

Definition Vec2_static_scale (v : Vec2) (s : T) : Vec2 :=
  mkVec2 (x v * s) (y v * s).

(** ** class Body *)

Record Shape : Type := mkShape { type : string; radius : T }.

Record Body : Type := mkBody {
  position : Vec2;
  velocity : Vec2;
  acceleration : Vec2;
  angle : T;
  angularVelocity : T;
  mass : T;
  invMass : T;
  restitution : T;
  friction : T;
  shape : Shape;
  static : bool
}.

Definition set_position (b : Body) (p : Vec2) : Body :=
  mkBody p (velocity b) (acceleration b) (angle b) (angularVelocity b)
    (mass b) (invMass b) (restitution b) (friction b) (shape b) (static b).

Definition set_velocity (b : Body) (v : Vec2) : Body :=
  mkBody (position b) v (acceleration b) (angle b) (angularVelocity b)
    (mass b) (invMass b) (restitution b) (friction b) (shape b) (static b).

Definition set_acceleration (b : Body) (a : Vec2) : Body :=
  mkBody (position b) (velocity b) a (angle b) (angularVelocity b)
    (mass b) (invMass b) (restitution b) (friction b) (shape b) (static b).

(** The [options] object of the constructor. [o_position] is a [Vec2] or a
    plain object with optional [x] and [y]; [o_velocity] is [Some] only for
    a [Vec2] instance, since any other value is ignored by the constructor. *)
Record Options : Type := mkOptions {
  o_position : option (option T * option T);
  o_velocity : option Vec2;
  o_angle : option T;
  o_angularVelocity : option T;
  o_mass : option T;
  o_restitution : option T;
  o_friction : option T;
  o_shape : option Shape;
  o_radius : option T;
  o_static : bool
}.

Definition from_option (v : option T) (d : T) : T :=
  match v with Some n => n | None => d end.

Definition Body_constructor (options : Options) : Body :=
  let position :=
    match o_position options with
    | Some (px, py) => mkVec2 (from_option px lit_0) (from_option py lit_0)
    | None => mkVec2 lit_0 lit_0
    end in
  let velocity :=
    match o_velocity options with
    | Some v => Vec2_clone v
    | None => mkVec2 lit_0 lit_0
    end in
  let mass :=
    match o_mass options with
    | Some m => if lit_0 <? m then m else lit_1
    | None => lit_1
    end in
  mkBody position velocity (mkVec2 lit_0 lit_0)
    (or_default (o_angle options) lit_0)
    (or_default (o_angularVelocity options) lit_0)
    mass
    (lit_1 / mass)
    (from_option (o_restitution options) lit_0_9)
    (from_option (o_friction options) lit_0_1)
    (match o_shape options with
     | Some s => s
     | None => mkShape "circle" (or_default (o_radius options) lit_1)
     end)
    (o_static options).

Definition Body_applyForce (this : Body) (force : Vec2) : Body :=
  if static this then this
  else set_acceleration this
         (Vec2_add (acceleration this) (Vec2_static_scale force (invMass this))).

Definition Body_integrate (this : Body) (dt : T) : Body :=
  if static this then this
  else
    let this := set_velocity this
                  (Vec2_add (velocity this) (Vec2_static_scale (acceleration this) dt)) in
    let this := set_position this
                  (Vec2_add (position this) (Vec2_static_scale (velocity this) dt)) in
    set_acceleration this (mkVec2 lit_0 lit_0).

(** ** class World *)

(** The program state the stepper works on: [bodies] is [World.bodies];
    [heap] gives the current state of every [Body] object by reference, and
    [fresh] is the next reference [new Body] hands out. *)
Record World : Type := mkWorld {
  bodies : list Handle;
  heap : Handle -> Body;
  fresh : Handle
}.

Definition set_bodies (w : World) (l : list Handle) : World :=
  mkWorld l (heap w) (fresh w).

(** Assignment to the fields of the object [h] refers to. *)
Definition update (h : Handle) (f : Body -> Body) (w : World) : World :=
  mkWorld (bodies w)
    (fun k => if Nat.eqb k h then f (heap w h) else heap w k)
    (fresh w).

(** An empty body list; the handles not yet handed out refer to nothing
    the code can reach, and are given a default body. *)
Definition World_constructor : World :=
  mkWorld [] (fun _ => Body_constructor
                         (mkOptions None None None None None None None None None false)) 0.

Definition World_addBody (body : Handle) (w : World) : World :=
  set_bodies w (bodies w ++ [body]).

(** [Array.prototype.indexOf]: the first index holding [v], or [-1]. *)
Fixpoint indexOf (l : list Handle) (v : Handle) : Z :=
  match l with
  | [] => (-1)%Z
  | a :: l' =>
      if Nat.eqb a v then 0%Z
      else let i := indexOf l' v in
           if (i <? 0)%Z then (-1)%Z else (i + 1)%Z
  end.

(** [l.splice(i, 1)] for an index [i] of [l]. *)
Fixpoint splice1 (l : list Handle) (i : nat) : list Handle :=
  match l, i with
  | [], _ => []
  | _ :: l', 0 => l'
  | a :: l', S i' => a :: splice1 l' i'
  end.

Definition World_removeBody (body : Handle) (w : World) : World :=
  let i := indexOf (bodies w) body in
  if (0 <=? i)%Z then set_bodies w (splice1 (bodies w) (Z.to_nat i)) else w.

(** The [detail] of a ['Collision'] event. *)
Record CollisionEvent : Type := mkCollisionEvent {
  bodyA : Handle;
  bodyB : Handle;
  normal : Vec2;
  penetration : T
}.

(** What the stepping path does, in the order it does it: each call of
    [Body.integrate] and of [World._collide] (an argument is [None] when it
    is [undefined]) and each event handed to [dispatchEvent]. *)
Inductive Obs : Type :=
| Integrated (b : Handle)
| Collided (A B : option Handle)
| Dispatched (e : CollisionEvent).

(** *** The monad of the stepping path *)

Definition St : Type := (World * list Obs)%type.

Inductive Res (A : Type) : Type :=
| Ok (a : A) (s : St)
| TypeError (s : St).
Arguments TypeError {A} s.

Definition M (A : Type) : Type := St -> Res A.

Definition ret {A : Type} (a : A) : M A := fun s => Ok a s.

Definition bind {A B : Type} (m : M A) (k : A -> M B) : M B :=
  fun s => match m s with
           | Ok a s' => k a s'
           | TypeError s' => TypeError s'
           end.

Definition throw {A : Type} : M A := fun s => TypeError s.

Definition note (o : Obs) : M unit :=
  fun s => Ok tt (fst s, snd s ++ [o]).

Definition modify (f : World -> World) : M unit :=
  fun s => Ok tt (f (fst s), snd s).

(** Reaching through a reference: a property read or a method call on
    [undefined] raises. *)
Definition deref (o : option Handle) : M Handle :=
  match o with
  | Some h => ret h
  | None => throw
  end.

(** [h.f] for a body [h]. *)
Definition field {X : Type} (h : Handle) (f : Body -> X) : M X :=
  fun s => Ok (f (heap (fst s) h)) s.

(** [this.bodies[i]], [undefined] past the end. *)
Definition bodies_at (i : nat) : M (option Handle) :=
  fun s => Ok (nth_error (bodies (fst s)) i) s.

Definition bodies_length : M nat :=
  fun s => Ok (List.length (bodies (fst s))) s.

(** [for (let k = i; k < i + n; k++) body(k)]; both loop bounds of
    [World.step] are fixed before the loop starts. *)
Fixpoint for_range (i n : nat) (body : nat -> M unit) : M unit :=
  match n with
  | 0 => ret tt
  | S n' => bind (body i) (fun _ => for_range (S i) n' body)
  end.

Notation "x <- m ;; k" := (bind m (fun x => k))
  (at level 61, m at next level, right associativity).
Notation "m ;;; k" := (bind m (fun _ => k))
  (at level 61, right associativity).

(** [b.integrate(dt)] on an element of [this.bodies]. *)
Definition integrate_at (b : option Handle) (dt : T) : M unit :=
  this <- deref b ;;
  note (Integrated this) ;;;
  modify (update this (fun body => Body_integrate body dt)).

(** [if (!X.static) X.field.op(...)]: the assignment [f] to the fields of
    [X] unless [X] is static. *)
Definition unless_static (X : Handle) (f : Body -> Body) (w : World) : World :=
  if static (heap w X) then w else update X f w.

Definition World__resolveCollision (A B : Handle) (normal : Vec2) (penetration : T)
           (w : World) : World :=
  let invMassSum := (if static (heap w A) then lit_0 else invMass (heap w A))
                    + (if static (heap w B) then lit_0 else invMass (heap w B)) in
  if invMassSum === lit_0 then w else
  let percent := lit_0_2 in
  let correction := Vec2_static_scale normal (percent * (penetration / invMassSum)) in
  let w := unless_static A (fun a =>
             set_position a
               (Vec2_sub (position a) (Vec2_static_scale correction (invMass a)))) w in
  let w := unless_static B (fun b =>
             set_position b
               (Vec2_add (position b) (Vec2_static_scale correction (invMass b)))) w in
  let relVel := Vec2_static_sub (velocity (heap w B)) (velocity (heap w A)) in
  let velAlongNormal := Vec2_dot relVel normal in
  if lit_0 <? velAlongNormal then w else
  let e := nmin (restitution (heap w A)) (restitution (heap w B)) in
  let j := - (lit_1 + e) * velAlongNormal / invMassSum in
  let impulse := Vec2_static_scale normal j in
  let w := unless_static A (fun a =>
             set_velocity a
               (Vec2_sub (velocity a) (Vec2_static_scale impulse (invMass a)))) w in
  let w := unless_static B (fun b =>
             set_velocity b
               (Vec2_add (velocity b) (Vec2_static_scale impulse (invMass b)))) w in
  w.

Definition is_circle (s : Shape) : bool := String.eqb (type s) "circle".

Section Stepping.

(** [this._emitter.dispatchEvent(event)]: the listeners run synchronously
    and may do anything to the program state (add or remove bodies, move
    them); an exception in a listener does not reach the caller. The
    listeners are taken as a function of the event and of the state they
    find. *)
Variable emitter : CollisionEvent -> World -> World.

Definition dispatchEvent (e : CollisionEvent) : M unit :=
  note (Dispatched e) ;;; modify (emitter e).

(** [A.static && B.static] and [A.shape.type === 'circle' &&
    B.shape.type === 'circle'] read [B] only when the left operand holds;
    past the second test both arguments are bodies. *)
Definition World__collide (A B : option Handle) : M unit :=
  note (Collided A B) ;;;
  a <- deref A ;;
  a_static <- field a static ;;
  both_static <- (if a_static then b <- deref B ;; field b static else ret false) ;;
  if both_static then ret tt else
  a_circle <- field a (fun body => is_circle (shape body)) ;;
  both_circles <- (if a_circle
                   then b <- deref B ;; field b (fun body => is_circle (shape body))
                   else ret false) ;;
  if both_circles then
    b <- deref B ;;
    b_position <- field b position ;;
    a_position <- field a position ;;
    let diff := Vec2_static_sub b_position a_position in
    let dist := Vec2_length diff in
    a_radius <- field a (fun body => radius (shape body)) ;;
    b_radius <- field b (fun body => radius (shape body)) ;;
    let r := a_radius + b_radius in
    if (dist === lit_0) || (dist <? r) then
      let normal := if dist === lit_0 then mkVec2 lit_1 lit_0
                    else Vec2_scale diff (lit_1 / dist) in
      let penetration := r - dist in
      modify (World__resolveCollision a b normal penetration) ;;;
      dispatchEvent (mkCollisionEvent a b normal penetration)
    else ret tt
  else ret tt.

Definition World_step (dt : T) : M unit :=
  len <- bodies_length ;;
  for_range 0 len (fun i => b <- bodies_at i ;; integrate_at b dt) ;;;
  for_range 0 len (fun i =>
    A <- bodies_at i ;;
    for_range (i + 1) (len - (i + 1)) (fun j =>
      B <- bodies_at j ;;
      World__collide A B)).

End Stepping.

(** ** class PhysicsEngine: the body bookkeeping *)

(** [addBody(options)]: a new [Body] is allocated and pushed; the result
    is the new state and the handle returned to the caller. *)
Definition PhysicsEngine_addBody (options : Options) (w : World) : World * Handle :=
  let body := fresh w in
  let w := mkWorld (bodies w)
             (fun k => if Nat.eqb k body then Body_constructor options else heap w k)
             (S body) in
  (World_addBody body w, body).

Definition PhysicsEngine_removeBody (body : Handle) (w : World) : World :=
  World_removeBody body w.

Definition PhysicsEngine_clear (w : World) : World := set_bodies w [].

Definition PhysicsEngine_getBodies (w : World) : list Handle := bodies w.

End Engine.

Arguments Vec2 T : clear implicits.
Arguments Shape T : clear implicits.
Arguments Body T : clear implicits.
Arguments Options T : clear implicits.
Arguments World T : clear implicits.
Arguments CollisionEvent T : clear implicits.
Arguments Obs T : clear implicits.
Arguments St T : clear implicits.
Arguments Res T A : clear implicits.
Arguments M T A : clear implicits.
Arguments Ok {T A} a s.
Arguments TypeError {T A} s.

(** ** Exact arithmetic: the reals *)

Definition Rltb (a b : R) : bool := if Rlt_dec a b then true else false.
Definition Reqb (a b : R) : bool := if Req_dec_T a b then true else false.

#[export] Instance Num_R : Num R := {|
  lit_0 := 0%R;
  lit_1 := 1%R;
  lit_0_2 := (2 / 10)%R;
  lit_0_9 := (9 / 10)%R;
  lit_0_1 := (1 / 10)%R;
  nadd := Rplus;
  nsub := Rminus;
  nmul := Rmult;
  ndiv := Rdiv;
  nneg := Ropp;
  hypot := fun a b => sqrt (a * a + b * b)%R;
  nmin := Rmin;
  nlt := Rltb;
  nseq := Reqb
|}.

(** ** Checked arithmetic *)

(** The numbers of an arithmetic [T] with one more value, [None]: the
    result of a division whose divisor tests equal to zero
    ([d === 0]), and of every operation on such a result. All the other
    results are those of [T], so over binary64 an overflow still gives an
    infinity and [0 * Infinity] still gives NaN: [None] only reports that
    a division by zero has taken place. A comparison with [None] is
    false. *)
Definition checked_lift2 {T : Type} (f : T -> T -> T) (a b : option T) : option T :=
  match a, b with
  | Some u, Some v => Some (f u v)
  | _, _ => None
  end.

Definition checked_div {T : Type} {N : Num T} (a b : option T) : option T :=
  match a, b with
  | Some u, Some v => if nseq v lit_0 then None else Some (ndiv u v)
  | _, _ => None
  end.

Definition checked_test {T : Type} (f : T -> T -> bool) (a b : option T) : bool :=
  match a, b with
  | Some u, Some v => f u v
  | _, _ => false
  end.

#[export] Instance Num_checked {T : Type} {N : Num T} : Num (option T) := {|
  lit_0 := Some lit_0;
  lit_1 := Some lit_1;
  lit_0_2 := Some lit_0_2;
  lit_0_9 := Some lit_0_9;
  lit_0_1 := Some lit_0_1;
  nadd := checked_lift2 nadd;
  nsub := checked_lift2 nsub;
  nmul := checked_lift2 nmul;
  ndiv := checked_div;
  nneg := fun a => match a with Some u => Some (nneg u) | None => None end;
  hypot := checked_lift2 hypot;
  nmin := checked_lift2 nmin;
  nlt := checked_test nlt;
  nseq := checked_test nseq
|}.

(** ** IEEE binary64 *)

(** [Math.min]: NaN when an argument is NaN, and [-0] below [+0]. *)
Definition float_min (a b : float) : float :=
  if (PrimFloat.is_nan a || PrimFloat.is_nan b)%bool then PrimFloat.nan
  else if PrimFloat.ltb a b then a
  else if PrimFloat.ltb b a then b
  else match PrimFloat.classify a with
       | FloatClass.NZero => a
       | _ => b
       end.

(** [Math.hypot] is implementation-approximated in ECMAScript; this is the
    textbook formula. On the zero vector both give [0]; elsewhere they
    agree up to rounding as long as nothing overflows or underflows, and
    the runs below depend on the value only through comparisons that a
    rounding error cannot change. *)
Definition float_hypot (a b : float) : float :=
  PrimFloat.sqrt (a * a + b * b)%float.

#[export] Instance Num_float : Num float := {|
  lit_0 := 0%float;
  lit_1 := 1%float;
  lit_0_2 := (2 / 10)%float;
  lit_0_9 := (9 / 10)%float;
  lit_0_1 := (1 / 10)%float;
  nadd := PrimFloat.add;
  nsub := PrimFloat.sub;
  nmul := PrimFloat.mul;
  ndiv := PrimFloat.div;
  nneg := PrimFloat.opp;
  hypot := float_hypot;
  nmin := float_min;
  nlt := PrimFloat.ltb;
  nseq := PrimFloat.eqb
|}.

Unset Implicit Arguments.

(** * Notions the properties are stated with *)

Section Notions.

Context {T : Type} {N : Num T}.
Local Open Scope num_scope.

(** The list without the first occurrence of [v]: what [World.removeBody]
    is meant to leave. *)
Fixpoint remove_first (v : Handle) (l : list Handle) : list Handle :=
  match l with
  | [] => []
  | a :: l' => if Nat.eqb a v then l' else a :: remove_first v l'
  end.

(** The bookkeeping of [PhysicsEngine] keeps the handles of [World.bodies]
    distinct: every body it adds is a new object. *)
Definition distinct_bodies (w : World T) : Prop :=
  NoDup (bodies w) /\ Forall (fun h => h < fresh w) (bodies w).

(** A function that assigns to [position] and [velocity] only. *)
Definition moves_only (f : Body T -> Body T) : Prop :=
  forall b, exists p v, f b = set_velocity (set_position b p) v.

(** [w'] differs from [w] in the positions and velocities of non-static
    bodies only. *)
Definition moved (w w' : World T) : Prop :=
  bodies w' = bodies w /\ fresh w' = fresh w /\
  forall h, (static (heap w h) = true -> heap w' h = heap w h) /\
            exists p v, heap w' h = set_velocity (set_position (heap w h) p) v.

(** What [_resolveCollision] computes from the two bodies it is given. *)
Definition invMassSum_of (a b : Body T) : T :=
  (if static a then lit_0 else invMass a) + (if static b then lit_0 else invMass b).

Definition correction_of (a b : Body T) (normal : Vec2 T) (penetration : T) : Vec2 T :=
  Vec2_static_scale normal (lit_0_2 * (penetration / invMassSum_of a b)).

Definition velAlongNormal_of (a b : Body T) (normal : Vec2 T) : T :=
  Vec2_dot (Vec2_static_sub (velocity b) (velocity a)) normal.

Definition impulse_of (a b : Body T) (normal : Vec2 T) : Vec2 T :=
  Vec2_static_scale normal
    (- (lit_1 + nmin (restitution a) (restitution b))
     * velAlongNormal_of a b normal / invMassSum_of a b).

(** The two bodies after [_resolveCollision], when they are two objects. *)
Definition resolved_A (a b : Body T) (normal : Vec2 T) (penetration : T) : Body T :=
  if invMassSum_of a b === lit_0 then a
  else if static a then a
  else
    let a1 := set_position a
                (Vec2_sub (position a)
                   (Vec2_static_scale (correction_of a b normal penetration) (invMass a))) in
    if lit_0 <? velAlongNormal_of a b normal then a1
    else set_velocity a1
           (Vec2_sub (velocity a) (Vec2_static_scale (impulse_of a b normal) (invMass a))).

Definition resolved_B (a b : Body T) (normal : Vec2 T) (penetration : T) : Body T :=
  if invMassSum_of a b === lit_0 then b
  else if static b then b
  else
    let b1 := set_position b
                (Vec2_add (position b)
                   (Vec2_static_scale (correction_of a b normal penetration) (invMass b))) in
    if lit_0 <? velAlongNormal_of a b normal then b1
    else set_velocity b1
           (Vec2_add (velocity b) (Vec2_static_scale (impulse_of a b normal) (invMass b))).

(** What [_collide] computes from two circle bodies: the distance of the
    centers, the sum of the radii, the test, the normal and the depth. *)
Definition dist_of (a b : Body T) : T :=
  Vec2_length (Vec2_static_sub (position b) (position a)).

Definition radii_of (a b : Body T) : T :=
  radius (shape a) + radius (shape b).

Definition overlap (a b : Body T) : bool :=
  (dist_of a b === lit_0) || (dist_of a b <? radii_of a b).

Definition normal_of (a b : Body T) : Vec2 T :=
  if dist_of a b === lit_0 then mkVec2 lit_1 lit_0
  else Vec2_scale (Vec2_static_sub (position b) (position a)) (lit_1 / dist_of a b).

Definition penetration_of (a b : Body T) : T :=
  radii_of a b - dist_of a b.

(** The pair is examined (not both static, both circles) and overlaps. *)
Definition detected (a b : Body T) : bool :=
  negb (static a && static b)
  && (is_circle (shape a) && is_circle (shape b))
  && overlap a b.

(** A pair of circles, not both static, whose centers are at distance 0:
    the pair [_collide] gives the fallback normal. *)
Definition coincident (a b : Body T) : Prop :=
  static a && static b = false /\
  is_circle (shape a) = true /\ is_circle (shape b) = true /\
  (dist_of a b === lit_0) = true.

Definition event_of (A B : Handle) (w : World T) : CollisionEvent T :=
  mkCollisionEvent A B (normal_of (heap w A) (heap w B))
    (penetration_of (heap w A) (heap w B)).

(** The bodies [integrate] was called on, in order. *)
Definition integrated (tr : list (Obs T)) : list Handle :=
  flat_map (fun o => match o with Integrated h => [h] | _ => [] end) tr.

(** The pairs [_collide] was called on, in order. *)
Definition collided (tr : list (Obs T)) : list (option Handle * option Handle) :=
  flat_map (fun o => match o with Collided a b => [(a, b)] | _ => [] end) tr.

(** The pairs [(l[i], l[j])], [i < j], outer loop over [i], inner over [j]. *)
Fixpoint ascending_pairs (l : list Handle) : list (option Handle * option Handle) :=
  match l with
  | [] => []
  | a :: l' => map (fun b => (Some a, Some b)) l' ++ ascending_pairs l'
  end.

(** Listeners that only push bodies: the list they leave starts with the
    list they found. *)
Definition appends_only (emitter : CollisionEvent T -> World T -> World T) : Prop :=
  forall e w, exists extra, bodies (emitter e w) = bodies w ++ extra.

(** Listeners that leave static bodies as they are. *)
Definition spares_static_bodies (emitter : CollisionEvent T -> World T -> World T) : Prop :=
  forall e w h, static (heap w h) = true -> heap (emitter e w) h = heap w h.

(** The state a run ends in, whether it returned or raised, and whether
    it raised. *)
Definition final {A : Type} (r : Res T A) : St T :=
  match r with
  | Ok _ s => s
  | TypeError s => s
  end.

Definition raised {A : Type} (r : Res T A) : bool :=
  match r with
  | Ok _ _ => false
  | TypeError _ => true
  end.

(** *** Scenes to run the code on *)

(** The descriptor of a circle at [(px, py)] with velocity [(vx, vy)];
    every other field is left to its default (mass 1, radius 1). *)
Definition circle_at (px py vx vy : T) (is_static : bool) : Options T :=
  mkOptions (Some (Some px, Some py)) (Some (mkVec2 vx vy))
    None None None None None None None is_static.

(** The world after [addBody] on each descriptor in turn; the handles are
    [0], [1], ... in that order. *)
Definition scene (descriptors : list (Options T)) : World T :=
  fold_left (fun w options => fst (PhysicsEngine_addBody options w))
    descriptors World_constructor.

(** A listener that removes the body [h]. *)
Definition removing_listener (h : Handle) : CollisionEvent T -> World T -> World T :=
  fun _ w => PhysicsEngine_removeBody h w.

(** A listener that adds a body. *)
Definition adding_listener (options : Options T) : CollisionEvent T -> World T -> World T :=
  fun _ w => fst (PhysicsEngine_addBody options w).

(** A listener that removes the body [h] and adds another one. *)
Definition replacing_listener (h : Handle) (options : Options T)
  : CollisionEvent T -> World T -> World T :=
  fun _ w => fst (PhysicsEngine_addBody options (PhysicsEngine_removeBody h w)).

End Notions.

Section CheckedNotions.

Context {T : Type} {N : Num T}.

(** A checked number that is a number of [T]: no division by zero has
    gone into it. *)
Definition defined (v : option T) : Prop := exists u : T, v = Some u.

Definition Vec2_defined (v : Vec2 (option T)) : Prop := defined (x v) /\ defined (y v).

(** The numbers [_collide] and [_resolveCollision] read from a body are
    numbers of [T]. *)
Definition Body_defined (b : Body (option T)) : Prop :=
  Vec2_defined (position b) /\ Vec2_defined (velocity b) /\
  defined (radius (shape b)) /\ defined (invMass b) /\ defined (restitution b).

End CheckedNotions.

(** Three circles at the origin, at rest, in binary64. *)
Definition three_circles : World float :=
  scene [circle_at 0 0 0 0 false; circle_at 0 0 0 0 false; circle_at 0 0 0 0 false]%float.

(** A static circle and a moving one that overlaps it, in binary64. *)
Definition wall_and_ball : World float :=
  scene [circle_at 0 0 0 0 true; circle_at 1 0 (-1) 0 false]%float.

(** Two circles far apart, the first one moving, in binary64. *)
Definition far_circles : World float :=
  scene [circle_at 0 0 1 0 false; circle_at 10 0 0 0 false]%float.

(** Two circles of mass [2^1023] and radius [10] at the origin, at rest,
    in binary64 and in checked binary64. *)
Definition heavy_circles : World float :=
  scene [mkOptions (Some (Some 0, Some 0)) None None None (Some 0x1p1023)
           None None None (Some 10) false;
         mkOptions (Some (Some 0, Some 0)) None None None (Some 0x1p1023)
           None None None (Some 10) false]%float.

Definition checked_heavy_circles : World (option float) :=
  scene [mkOptions (Some (Some (Some 0), Some (Some 0))) None None None
           (Some (Some 0x1p1023)) None None None (Some (Some 10)) false;
         mkOptions (Some (Some (Some 0), Some (Some 0))) None None None
           (Some (Some 0x1p1023)) None None None (Some (Some 10)) false]%float.

Section RealNotions.

Local Open Scope R_scope.

(** [n] successive calls of [integrate(dt)]. *)
Definition integrate_times (n : nat) (dt : R) (b : Body R) : Body R :=
  Nat.iter n (fun this => Body_integrate this dt) b.

(** The mass-weighted sum of the two velocities. *)
Definition momentum (w : World R) (A B : Handle) : Vec2 R :=
  mkVec2 (mass (heap w A) * x (velocity (heap w A))
          + mass (heap w B) * x (velocity (heap w B)))
         (mass (heap w A) * y (velocity (heap w A))
          + mass (heap w B) * y (velocity (heap w B))).

(** Two circles at the origin, the first one moving, over the reals. *)
Definition two_circles : World R :=
  scene [circle_at 0 0 3 4 false; circle_at 0 0 0 0 false].

End RealNotions.

(** * The rest of [PhysicsEngine]: lifecycle and guards *)

Section Facade.

Context {T : Type} {N : Num T}.
Local Open Scope num_scope.

(** The integer literal [n] as [0 + 1 + ... + 1]: exact at the reals and,
    for the small integers of the source, at binary64. *)
Fixpoint number_of_nat (n : nat) : T :=
  match n with
  | 0 => lit_0
  | S n' => number_of_nat n' + lit_1
  end.

(** The fields of a [PhysicsEngine] the stepping depends on; [world] is
    [None] while it is [null]. The body objects live in the [heap] of the
    world record, which a new [World] inherits. *)
Record PhysicsEngine : Type := mkPhysicsEngine {
  world : option (World T);
  running : bool
}.


(** A method of the engine returns, or raises with the state it has
    reached. *)
Inductive Outcome : Type :=
| Returned (this : PhysicsEngine) (tr : list (Obs T))
| Raised (this : PhysicsEngine) (tr : list (Obs T)).


Definition PhysicsEngine__onStart (this : PhysicsEngine) : PhysicsEngine :=
  mkPhysicsEngine (world this) true.

Definition PhysicsEngine__onPause (this : PhysicsEngine) : PhysicsEngine :=
  mkPhysicsEngine (world this) false.

Definition PhysicsEngine__onResume (this : PhysicsEngine) : PhysicsEngine :=
  mkPhysicsEngine (world this) true.

Section Ticking.

Variable emitter : CollisionEvent T -> World T -> World T.

(** [_onTick(e)]; [detail] is [None] when [e.detail] is missing, and
    [Some None] when it has no [delta]. *)
Definition PhysicsEngine__onTick (detail : option (option T)) (this : PhysicsEngine)
           (tr : list (Obs T)) : Outcome :=
  if negb (running this) then Returned this tr
  else
    let dt := match detail with
              | Some (Some delta) => delta
              | _ => lit_1 / number_of_nat 60
              end in
    match world this with
    | None => Raised this tr
    | Some w =>
        match World_step emitter dt (w, tr) with
        | Ok _ s => Returned (mkPhysicsEngine (Some (fst s)) (running this)) (snd s)
        | TypeError s => Raised (mkPhysicsEngine (Some (fst s)) (running this)) (snd s)
        end
    end.

(** The events of the game loop [init] subscribes to, with the handler of
    each. *)
Inductive LoopEvent : Type :=
| GameStart
| GamePause
| GameResume
| GameOver
| tick (detail : option (option T)).

Definition deliver (e : LoopEvent) (this : PhysicsEngine) (tr : list (Obs T)) : Outcome :=
  match e with
  | GameStart => Returned (PhysicsEngine__onStart this) tr
  | GamePause => Returned (PhysicsEngine__onPause this) tr
  | GameResume => Returned (PhysicsEngine__onResume this) tr
  | GameOver => Returned (PhysicsEngine__onPause this) tr
  | tick detail => PhysicsEngine__onTick detail this tr
  end.

(** The events of a list, one after the other; an exception in a handler
    is reported by the event target and the next event is delivered. *)
Fixpoint deliver_all (l : list LoopEvent) (this : PhysicsEngine) (tr : list (Obs T))
  : PhysicsEngine * list (Obs T) :=
  match l with
  | [] => (this, tr)
  | e :: l' =>
      match deliver e this tr with
      | Returned this' tr' => deliver_all l' this' tr'
      | Raised this' tr' => deliver_all l' this' tr'
      end
  end.

(** Whether every handler returned while the events of [l] were
    delivered: no exception reached the event target. *)
Fixpoint all_returned (l : list LoopEvent) (this : PhysicsEngine) (tr : list (Obs T))
  : bool :=
  match l with
  | [] => true
  | e :: l' =>
      match deliver e this tr with
      | Returned this' tr' => all_returned l' this' tr'
      | Raised _ _ => false
      end
  end.

End Ticking.

(** The methods that reach through [this.world]. *)
Definition engine_addBody (options : Options T) (this : PhysicsEngine)
  : option (PhysicsEngine * Handle) :=
  match world this with
  | Some w => let r := PhysicsEngine_addBody options w in
              Some (mkPhysicsEngine (Some (fst r)) (running this), snd r)
  | None => None
  end.

Definition engine_removeBody (body : Handle) (this : PhysicsEngine)
  : option PhysicsEngine :=
  match world this with
  | Some w => Some (mkPhysicsEngine (Some (PhysicsEngine_removeBody body w)) (running this))
  | None => None
  end.

Definition engine_clear (this : PhysicsEngine) : PhysicsEngine :=
  match world this with
  | Some w => mkPhysicsEngine (Some (PhysicsEngine_clear w)) (running this)
  | None => this
  end.

Definition engine_getBodies (this : PhysicsEngine) : list Handle :=
  match world this with
  | Some w => PhysicsEngine_getBodies w
  | None => []
  end.

(** *** More notions the properties are stated with *)

(** The world after [integrate(dt)] on each body of [l] in turn. *)
Definition integrate_all (dt : T) (l : list Handle) (w : World T) : World T :=
  fold_left (fun w h => update h (fun body => Body_integrate body dt) w) l w.

(** [w'] has the same body list as [w], and its bodies differ from those of
    [w] in position, velocity and acceleration only. *)
Definition kinematic_only (w w' : World T) : Prop :=
  bodies w' = bodies w /\ fresh w' = fresh w /\
  forall h, exists p v a,
    heap w' h = set_acceleration (set_velocity (set_position (heap w h) p) v) a.

(** The fields of a body the stepping path reads; [angle],
    [angularVelocity], [mass] and [friction] are not among them. *)
Definition dynamics (b : Body T)
  : Vec2 T * Vec2 T * Vec2 T * T * T * Shape T * bool :=
  (position b, velocity b, acceleration b, invMass b, restitution b, shape b, static b).

(** An assignment that reads and writes those fields only. *)
Definition dynamic (f : Body T -> Body T) : Prop :=
  forall b b', dynamics b' = dynamics b -> dynamics (f b') = dynamics (f b).

(** [w'] has the body list of [w], and its bodies agree with those of [w]
    on the fields the stepping path reads. *)
Definition same_dynamics (w w' : World T) : Prop :=
  bodies w' = bodies w /\ forall h, dynamics (heap w' h) = dynamics (heap w h).

(** Two runs that did the same calls and ended alike in such states. *)
Definition same_run {A : Type} (r r' : Res T A) : Prop :=
  match r, r' with
  | Ok a s, Ok a' s' => a' = a /\ same_dynamics (fst s) (fst s') /\ snd s' = snd s
  | TypeError s, TypeError s' => same_dynamics (fst s) (fst s') /\ snd s' = snd s
  | _, _ => False
  end.

(** The body [b] with another [friction]. *)
Definition with_friction (mu : T) (b : Body T) : Body T :=
  mkBody (position b) (velocity b) (acceleration b) (angle b) (angularVelocity b)
    (mass b) (invMass b) (restitution b) mu (shape b) (static b).

(** An event that is neither a start nor a resume. *)
Definition keeps_stopped (e : LoopEvent) : bool :=
  match e with
  | GameStart | GameResume => false
  | _ => true
  end.


End Facade.

Arguments PhysicsEngine T : clear implicits.
Arguments Outcome T : clear implicits.
Arguments LoopEvent T : clear implicits.

Section MoreRealNotions.

Local Open Scope R_scope.

(** Twice the kinetic energy of two bodies. *)
Definition kinetic_energy2 (w : World R) (A B : Handle) : R :=
  mass (heap w A) * (x (velocity (heap w A)) * x (velocity (heap w A))
                     + y (velocity (heap w A)) * y (velocity (heap w A)))
  + mass (heap w B) * (x (velocity (heap w B)) * x (velocity (heap w B))
                       + y (velocity (heap w B)) * y (velocity (heap w B))).

(** The mass-weighted sum of the two positions. *)
Definition mass_center (w : World R) (A B : Handle) : Vec2 R :=
  mkVec2 (mass (heap w A) * x (position (heap w A))
          + mass (heap w B) * x (position (heap w B)))
         (mass (heap w A) * y (position (heap w A))
          + mass (heap w B) * y (position (heap w B))).

(** The relative velocity of [B] with respect to [A] along [n]. *)
Definition approach (w : World R) (A B : Handle) (n : Vec2 R) : R :=
  velAlongNormal_of (heap w A) (heap w B) n.

(** Two overlapping circles one apart, the first one moving, over the
    reals. *)
Definition near_circles : World R :=
  scene [circle_at 0 0 3 4 false; circle_at 1 0 0 0 false].

End MoreRealNotions.

(** * Properties *)

(** ** The body list *)

Section BodyList.

Context {T : Type} {N : Num T}.

Lemma indexOf_lower (l : list Handle) (v : Handle) : (-1 <= indexOf l v)%Z.
Proof.
  induction l as [|a l IH]; simpl; [lia|].
  destruct (Nat.eqb a v); [lia|].
  destruct (indexOf l v <? 0)%Z eqn:E; lia.
Qed.

Lemma indexOf_absent (l : list Handle) (v : Handle) :
  ~ In v l -> indexOf l v = (-1)%Z.
Proof.
  induction l as [|a l IH]; simpl; intros Hn; [reflexivity|].
  destruct (Nat.eqb_spec a v) as [->|Hne]; [exfalso; auto|].
  rewrite IH by tauto. reflexivity.
Qed.

Lemma indexOf_present (l : list Handle) (v : Handle) :
  In v l -> (0 <= indexOf l v)%Z.
Proof.
  induction l as [|a l IH]; simpl; intros Hin; [contradiction|].
  destruct (Nat.eqb_spec a v) as [->|Hne]; [lia|].
  destruct Hin as [->|Hin]; [congruence|].
  specialize (IH Hin).
  destruct (Z.ltb_spec (indexOf l v) 0); lia.
Qed.

Lemma splice1_indexOf (l : list Handle) (v : Handle) :
  In v l -> splice1 l (Z.to_nat (indexOf l v)) = remove_first v l.
Proof.
  induction l as [|a l IH]; simpl; intros Hin; [contradiction|].
  destruct (Nat.eqb_spec a v) as [->|Hne]; [reflexivity|].
  destruct Hin as [->|Hin]; [congruence|].
  pose proof (indexOf_present l v Hin) as Hp.
  destruct (Z.ltb_spec (indexOf l v) 0); [lia|].
  replace (Z.to_nat (indexOf l v + 1)) with (S (Z.to_nat (indexOf l v))) by lia.
  simpl. now rewrite IH.
Qed.

Lemma remove_first_absent (l : list Handle) (v : Handle) :
  ~ In v l -> remove_first v l = l.
Proof.
  induction l as [|a l IH]; simpl; intros Hn; [reflexivity|].
  destruct (Nat.eqb_spec a v) as [->|Hne]; [exfalso; auto|].
  rewrite IH by tauto. reflexivity.
Qed.

Lemma remove_first_NoDup (l : list Handle) (v : Handle) :
  NoDup l -> ~ In v (remove_first v l).
Proof.
  induction 1 as [|a l Ha Hl IH]; simpl; [tauto|].
  destruct (Nat.eqb_spec a v) as [->|Hne]; [assumption|].
  simpl. tauto.
Qed.

Lemma remove_first_incl (l : list Handle) (v h : Handle) :
  In h (remove_first v l) -> In h l.
Proof.
  induction l as [|a l IH]; simpl; [tauto|].
  destruct (Nat.eqb a v); simpl; tauto.
Qed.

Lemma remove_first_keeps_NoDup (l : list Handle) (v : Handle) :
  NoDup l -> NoDup (remove_first v l).
Proof.
  induction 1 as [|a l Ha Hl IH]; simpl; [constructor|].
  destruct (Nat.eqb a v); [assumption|].
  constructor; [|assumption].
  intros Hin. apply Ha. eapply remove_first_incl; eassumption.
Qed.

Lemma World_removeBody_bodies (body : Handle) (w : World T) :
  World_removeBody body w = set_bodies w (remove_first body (bodies w)).
Proof.
  unfold World_removeBody.
  destruct (in_dec Nat.eq_dec body (bodies w)) as [Hin|Hn].
  - pose proof (indexOf_present _ _ Hin) as Hp.
    destruct (Z.leb_spec 0 (indexOf (bodies w) body)); [|lia].
    now rewrite splice1_indexOf.
  - rewrite (indexOf_absent _ _ Hn). simpl.
    rewrite (remove_first_absent _ _ Hn). now destruct w.
Qed.

Lemma distinct_bodies_constructor : distinct_bodies (@World_constructor T N).
Proof. split; constructor. Qed.

Lemma distinct_bodies_addBody (options : Options T) (w : World T) :
  distinct_bodies w -> distinct_bodies (fst (PhysicsEngine_addBody options w)).
Proof.
  intros [Hnd Hlt]. unfold PhysicsEngine_addBody, World_addBody, distinct_bodies. simpl.
  split.
  - apply NoDup_app; [assumption|repeat constructor; simpl; tauto|].
    intros h Hin [<-|[]].
    rewrite Forall_forall in Hlt. specialize (Hlt _ Hin). lia.
  - apply Forall_app. split.
    + eapply Forall_impl; [|exact Hlt]. simpl. intros; lia.
    + repeat constructor.
Qed.

Lemma distinct_bodies_removeBody (body : Handle) (w : World T) :
  distinct_bodies w -> distinct_bodies (PhysicsEngine_removeBody body w).
Proof.
  intros [Hnd Hlt]. unfold PhysicsEngine_removeBody.
  rewrite World_removeBody_bodies. unfold distinct_bodies. simpl. split.
  - now apply remove_first_keeps_NoDup.
  - rewrite Forall_forall in *. intros h Hin. apply Hlt.
    eapply remove_first_incl; eassumption.
Qed.

Lemma distinct_bodies_clear (w : World T) :
  distinct_bodies (PhysicsEngine_clear w).
Proof. split; constructor. Qed.

End BodyList.

(** ** Collision resolution, for any arithmetic *)

Section Resolution.

Context {T : Type} {N : Num T}.
Local Open Scope num_scope.

Lemma heap_update_eq (h : Handle) (f : Body T -> Body T) (w : World T) :
  heap (update h f w) h = f (heap w h).
Proof. unfold update; simpl. now rewrite Nat.eqb_refl. Qed.

Lemma heap_update_neq (h k : Handle) (f : Body T -> Body T) (w : World T) :
  k <> h -> heap (update h f w) k = heap w k.
Proof.
  intros Hne. unfold update; simpl.
  destruct (Nat.eqb_spec k h); [contradiction|reflexivity].
Qed.

Lemma moved_refl (w : World T) : moved w w.
Proof.
  repeat split; intros.
  exists (position (heap w h)), (velocity (heap w h)). now destruct (heap w h).
Qed.

Lemma moved_trans (w1 w2 w3 : World T) : moved w1 w2 -> moved w2 w3 -> moved w1 w3.
Proof.
  intros (Hb & Hf & H12) (Hb' & Hf' & H23).
  split; [congruence|]. split; [congruence|].
  intros h. destruct (H12 h) as [Hs (p & v & E)]. destruct (H23 h) as [Hs' (p' & v' & E')].
  split.
  - intros St. rewrite Hs' by (rewrite (Hs St); exact St). auto.
  - exists p', v'. rewrite E', E. reflexivity.
Qed.

Lemma moved_unless_static (X : Handle) (f : Body T -> Body T) (w : World T) :
  moves_only f -> moved w (unless_static X f w).
Proof.
  intros Hf. unfold unless_static.
  destruct (static (heap w X)) eqn:HX; [apply moved_refl|].
  repeat split; intros.
  - destruct (Nat.eq_dec h X) as [->|Hne]; [congruence|].
    now apply heap_update_neq.
  - destruct (Nat.eq_dec h X) as [->|Hne].
    + rewrite heap_update_eq. apply Hf.
    + rewrite heap_update_neq by assumption.
      exists (position (heap w h)), (velocity (heap w h)). now destruct (heap w h).
Qed.

Lemma moves_only_position (g : Body T -> Vec2 T) :
  moves_only (fun b => set_position b (g b)).
Proof. intros b. exists (g b), (velocity b). reflexivity. Qed.

Lemma moves_only_velocity (g : Body T -> Vec2 T) :
  moves_only (fun b => set_velocity b (g b)).
Proof. intros b. exists (position b), (g b). reflexivity. Qed.

Lemma resolve_moved (A B : Handle) (normal : Vec2 T) (penetration : T) (w : World T) :
  moved w (World__resolveCollision A B normal penetration w).
Proof.
  unfold World__resolveCollision.
  repeat match goal with
         | |- moved _ (if ?c then _ else _) => destruct c
         | |- moved ?w ?w => apply moved_refl
         | |- moved _ (let w' := unless_static _ _ _ in _) =>
             cbv zeta
         | |- moved _ (let _ := _ in _) => cbv zeta
         end;
  repeat (eapply moved_trans;
          [|apply moved_unless_static;
            first [apply moves_only_position | apply moves_only_velocity]]);
  apply moved_refl.
Qed.

Lemma unless_static_at (X : Handle) (f : Body T -> Body T) (w : World T) :
  heap (unless_static X f w) X = if static (heap w X) then heap w X else f (heap w X).
Proof.
  unfold unless_static. destruct (static (heap w X)); [reflexivity|apply heap_update_eq].
Qed.

Lemma unless_static_away (X k : Handle) (f : Body T -> Body T) (w : World T) :
  k <> X -> heap (unless_static X f w) k = heap w k.
Proof.
  intros Hne. unfold unless_static.
  destruct (static (heap w X)); [reflexivity|now apply heap_update_neq].
Qed.

Lemma resolve_two_bodies (A B : Handle) (normal : Vec2 T) (penetration : T) (w : World T) :
  A <> B ->
  heap (World__resolveCollision A B normal penetration w) A
    = resolved_A (heap w A) (heap w B) normal penetration /\
  heap (World__resolveCollision A B normal penetration w) B
    = resolved_B (heap w A) (heap w B) normal penetration.
Proof.
  intros Hne.
  assert (Hne' : B <> A) by congruence.
  unfold World__resolveCollision, resolved_A, resolved_B.
  fold (invMassSum_of (heap w A) (heap w B)).
  destruct (invMassSum_of (heap w A) (heap w B) === lit_0) eqn:Hs; [split; reflexivity|].
  cbv zeta.
  fold (correction_of (heap w A) (heap w B) normal penetration).
  set (fa := fun a : Body T => set_position a (Vec2_sub _ _)).
  set (fb := fun b : Body T => set_position b (Vec2_add _ _)).
  set (w1 := unless_static A fa w).
  set (w2 := unless_static B fb w1).
  assert (HA : heap w2 A = if static (heap w A) then heap w A else fa (heap w A)).
  { unfold w2. rewrite unless_static_away by assumption. apply unless_static_at. }
  assert (HB : heap w2 B = if static (heap w B) then heap w B else fb (heap w B)).
  { unfold w2. rewrite unless_static_at. unfold w1.
    rewrite !unless_static_away by assumption. reflexivity. }
  assert (HvA : velocity (heap w2 A) = velocity (heap w A)).
  { rewrite HA. now destruct (static (heap w A)). }
  assert (HvB : velocity (heap w2 B) = velocity (heap w B)).
  { rewrite HB. now destruct (static (heap w B)). }
  assert (HrA : restitution (heap w2 A) = restitution (heap w A)).
  { rewrite HA. now destruct (static (heap w A)). }
  assert (HrB : restitution (heap w2 B) = restitution (heap w B)).
  { rewrite HB. now destruct (static (heap w B)). }
  assert (HsA : static (heap w2 A) = static (heap w A)).
  { rewrite HA. destruct (static (heap w A)) eqn:E; [exact E|exact E]. }
  assert (HsB : static (heap w2 B) = static (heap w B)).
  { rewrite HB. destruct (static (heap w B)) eqn:E; [exact E|exact E]. }
  rewrite HvA, HvB, HrA, HrB.
  fold (velAlongNormal_of (heap w A) (heap w B) normal).
  fold (impulse_of (heap w A) (heap w B) normal).
  destruct (lit_0 <? velAlongNormal_of (heap w A) (heap w B) normal) eqn:Hv.
  - rewrite HA, HB. split.
    + now destruct (static (heap w A)).
    + now destruct (static (heap w B)).
  - set (ga := fun a : Body T => set_velocity a (Vec2_sub _ _)).
    set (gb := fun b : Body T => set_velocity b (Vec2_add _ _)).
    split.
    + rewrite unless_static_away by assumption. rewrite unless_static_at.
      rewrite HsA, HA. destruct (static (heap w A)); reflexivity.
    + rewrite unless_static_at. rewrite !unless_static_away by assumption.
      rewrite HsB, HB. destruct (static (heap w B)); reflexivity.
Qed.

(** Nothing in the stepping path writes [mass], [invMass] or [static]. *)
Lemma integrate_keeps_mass (b : Body T) (dt : T) :
  mass (Body_integrate b dt) = mass b /\
  invMass (Body_integrate b dt) = invMass b /\
  static (Body_integrate b dt) = static b.
Proof.
  unfold Body_integrate. destruct (static b) eqn:E; simpl; auto.
Qed.

Lemma resolve_keeps_mass (A B h : Handle) (n : Vec2 T) (p : T) (w : World T) :
  mass (heap (World__resolveCollision A B n p w) h) = mass (heap w h) /\
  invMass (heap (World__resolveCollision A B n p w) h) = invMass (heap w h) /\
  static (heap (World__resolveCollision A B n p w) h) = static (heap w h).
Proof.
  destruct (resolve_moved A B n p w) as (_ & _ & Hm).
  destruct (Hm h) as [_ (q & v & ->)]. simpl. auto.
Qed.

End Resolution.

(** ** Collision detection, for any arithmetic *)

Section Detection.

Context {T : Type} {N : Num T}.
Local Open Scope num_scope.

Variable emitter : CollisionEvent T -> World T -> World T.

(** [_collide] on two bodies: it returns; when the pair is detected the
    collision is resolved and then dispatched, otherwise nothing happens. *)
Lemma collide_two_bodies (A B : Handle) (w : World T) (tr : list (Obs T)) :
  World__collide emitter (Some A) (Some B) (w, tr)
  = if detected (heap w A) (heap w B)
    then Ok tt (emitter (event_of A B w)
                  (World__resolveCollision A B (normal_of (heap w A) (heap w B))
                     (penetration_of (heap w A) (heap w B)) w),
                tr ++ [Collided (Some A) (Some B); Dispatched (event_of A B w)])
    else Ok tt (w, tr ++ [Collided (Some A) (Some B)]).
Proof.
  unfold detected, overlap, event_of, normal_of, penetration_of, radii_of, dist_of.
  cbv [World__collide dispatchEvent bind ret field deref modify note throw fst snd].
  destruct (static (heap w A)), (static (heap w B)); simpl;
    try reflexivity;
    destruct (is_circle (shape (heap w A))), (is_circle (shape (heap w B))); simpl;
    try reflexivity;
    match goal with
    | |- context [if ?c then _ else _] => destruct c; try reflexivity
    end;
    rewrite <- app_assoc; reflexivity.
Qed.

End Detection.

(** ** Exact arithmetic *)

Section Exact.

Local Open Scope R_scope.

Lemma Rltb_true (a b : R) : Rltb a b = true <-> a < b.
Proof. unfold Rltb. destruct (Rlt_dec a b); split; intros; try discriminate; tauto. Qed.

Lemma Rltb_false (a b : R) : Rltb a b = false <-> ~ a < b.
Proof. unfold Rltb. destruct (Rlt_dec a b); split; intros; try discriminate; tauto. Qed.

Lemma Reqb_true (a b : R) : Reqb a b = true <-> a = b.
Proof. unfold Reqb. destruct (Req_dec_T a b); split; intros; try discriminate; tauto. Qed.

Lemma Reqb_false (a b : R) : Reqb a b = false <-> a <> b.
Proof. unfold Reqb. destruct (Req_dec_T a b); split; intros; try discriminate; tauto. Qed.

Lemma Vec2_eq (u v : Vec2 R) : x u = x v -> y u = y v -> u = v.
Proof. destruct u, v; simpl; intros; subst; reflexivity. Qed.

(** C2. [integrate(dt)] on a non-static body is semi-implicit Euler: the
    velocity becomes [velocity + acceleration*dt], the position becomes
    [position + (new velocity)*dt] and the acceleration is reset to zero.
    With zero acceleration, after any number [n] of successive calls the
    velocity is unchanged and the position is the initial one plus [n]
    times [velocity*dt]. *)
Theorem integrate_is_semi_implicit_euler (b : Body R) (dt : R) :
  static b = false ->
  (velocity (Body_integrate b dt)
     = mkVec2 (x (velocity b) + x (acceleration b) * dt)
              (y (velocity b) + y (acceleration b) * dt) /\
   position (Body_integrate b dt)
     = mkVec2 (x (position b) + x (velocity (Body_integrate b dt)) * dt)
              (y (position b) + y (velocity (Body_integrate b dt)) * dt) /\
   acceleration (Body_integrate b dt) = mkVec2 0 0) /\
  (acceleration b = mkVec2 0 0 ->
   forall n : nat,
     velocity (integrate_times n dt b) = velocity b /\
     position (integrate_times n dt b)
       = mkVec2 (x (position b) + INR n * (x (velocity b) * dt))
                (y (position b) + INR n * (y (velocity b) * dt))).
Proof.
  intros Hs. split.
  - unfold Body_integrate. rewrite Hs. simpl. repeat split.
  - intros Ha n.
    assert (H : velocity (integrate_times n dt b) = velocity b /\
                position (integrate_times n dt b)
                  = mkVec2 (x (position b) + INR n * (x (velocity b) * dt))
                           (y (position b) + INR n * (y (velocity b) * dt)) /\
                acceleration (integrate_times n dt b) = mkVec2 0 0 /\
                static (integrate_times n dt b) = false).
    { induction n as [|n IH].
      - simpl. repeat split; try assumption.
        apply Vec2_eq; simpl; ring.
      - destruct IH as (Hv & Hp & Hacc & Hst).
        change (integrate_times (S n) dt b)
          with (Body_integrate (integrate_times n dt b) dt).
        rewrite S_INR.
        unfold Body_integrate at 1 2 3 4. rewrite Hst. simpl.
        rewrite Hv, Hp, Hacc. simpl. repeat split.
        + apply Vec2_eq; simpl; ring.
        + apply Vec2_eq; simpl; ring.
        + assumption. }
    tauto.
Qed.

Variable emitter : CollisionEvent R -> World R -> World R.

Lemma dist_of_R (a b : Body R) :
  dist_of a b
  = sqrt ((x (position b) - x (position a)) * (x (position b) - x (position a))
          + (y (position b) - y (position a)) * (y (position b) - y (position a))).
Proof. reflexivity. Qed.

Lemma normal_of_R (a b : Body R) :
  normal_of a b
  = if Req_dec_T (dist_of a b) 0 then mkVec2 1 0
    else mkVec2 ((x (position b) - x (position a)) / dist_of a b)
                ((y (position b) - y (position a)) / dist_of a b).
Proof.
  unfold normal_of.
  change (nseq (dist_of a b) lit_0) with (Reqb (dist_of a b) 0). unfold Reqb.
  destruct (Req_dec_T (dist_of a b) 0); [reflexivity|].
  apply Vec2_eq; simpl; unfold Rdiv; ring.
Qed.

Lemma overlap_R (a b : Body R) :
  overlap a b = true <-> dist_of a b < radii_of a b \/ dist_of a b = 0.
Proof.
  unfold overlap. rewrite orb_true_iff.
  change (nseq (dist_of a b) lit_0) with (Reqb (dist_of a b) 0).
  change (nlt (dist_of a b) (radii_of a b)) with (Rltb (dist_of a b) (radii_of a b)).
  rewrite Reqb_true, Rltb_true. tauto.
Qed.

(** C1. For two circle bodies that are not both static, with [d] the
    Euclidean distance of the centers and [r] the sum of the radii,
    [_collide] dispatches a collision exactly when [d < r] or [d = 0]; the
    event carries the normal [(posB - posA) / d], or [(1, 0)] when
    [d = 0], and the penetration [r - d], and the same normal and
    penetration are what the resolution is run with. *)
Theorem collision_is_registered_iff_overlap
        (w : World R) (tr : list (Obs R)) (A B : Handle) :
  static (heap w A) && static (heap w B) = false ->
  is_circle (shape (heap w A)) = true ->
  is_circle (shape (heap w B)) = true ->
  let pa := position (heap w A) in
  let pb := position (heap w B) in
  let d := sqrt ((x pb - x pa) * (x pb - x pa) + (y pb - y pa) * (y pb - y pa)) in
  let r := radius (shape (heap w A)) + radius (shape (heap w B)) in
  let registered_with normal :=
    World__collide emitter (Some A) (Some B) (w, tr)
    = Ok tt (emitter (mkCollisionEvent A B normal (r - d))
               (World__resolveCollision A B normal (r - d) w),
             tr ++ [Collided (Some A) (Some B);
                    Dispatched (mkCollisionEvent A B normal (r - d))]) in
  (d = 0 -> registered_with (mkVec2 1 0)) /\
  (d <> 0 -> d < r -> registered_with (mkVec2 ((x pb - x pa) / d) ((y pb - y pa) / d))) /\
  (d <> 0 -> ~ d < r ->
   World__collide emitter (Some A) (Some B) (w, tr)
   = Ok tt (w, tr ++ [Collided (Some A) (Some B)])) /\
  ((exists e w', World__collide emitter (Some A) (Some B) (w, tr)
                 = Ok tt (w', tr ++ [Collided (Some A) (Some B); Dispatched e]))
   <-> d < r \/ d = 0).
Proof.
  intros Hst Ha Hb pa pb d r registered_with.
  assert (Hd : dist_of (heap w A) (heap w B) = d) by apply dist_of_R.
  assert (Hr : radii_of (heap w A) (heap w B) = r) by reflexivity.
  assert (Hdet : detected (heap w A) (heap w B) = overlap (heap w A) (heap w B)).
  { unfold detected. now rewrite Hst, Ha, Hb. }
  assert (Hyes : d < r \/ d = 0 ->
                 registered_with (normal_of (heap w A) (heap w B))).
  { intros Hov. unfold registered_with. rewrite collide_two_bodies, Hdet.
    replace (overlap (heap w A) (heap w B)) with true
      by (symmetry; apply overlap_R; rewrite Hd, Hr; exact Hov).
    unfold event_of, penetration_of. rewrite Hd, Hr. reflexivity. }
  assert (Hno : ~ (d < r \/ d = 0) ->
                World__collide emitter (Some A) (Some B) (w, tr)
                = Ok tt (w, tr ++ [Collided (Some A) (Some B)])).
  { intros Hov. rewrite collide_two_bodies, Hdet.
    destruct (overlap (heap w A) (heap w B)) eqn:E; [|reflexivity].
    exfalso. apply Hov. rewrite <- Hd, <- Hr. now apply overlap_R. }
  repeat split.
  - intros H0. specialize (Hyes (or_intror H0)).
    rewrite normal_of_R, Hd in Hyes.
    destruct (Req_dec_T d 0); [exact Hyes|contradiction].
  - intros Hn0 Hlt. specialize (Hyes (or_introl Hlt)).
    rewrite normal_of_R, Hd in Hyes.
    destruct (Req_dec_T d 0); [contradiction|exact Hyes].
  - intros Hn0 Hnlt. apply Hno. tauto.
  - intros (e & w' & He).
    destruct (Rlt_dec d r) as [|Hnlt]; [tauto|].
    destruct (Req_dec_T d 0) as [|Hn0]; [tauto|].
    rewrite Hno in He by tauto.
    injection He as _ Htr. apply app_inv_head in Htr. discriminate.
  - intros Hov. eexists _, _. exact (Hyes Hov).
Qed.

Lemma invMassSum_of_R (a b : Body R) :
  invMassSum_of a b
  = (if static a then 0 else invMass a) + (if static b then 0 else invMass b).
Proof. reflexivity. Qed.

(** C4. With a positive combined inverse mass, and [velAlongNormal] the
    relative velocity along the normal: both positions receive the
    positional correction; when [velAlongNormal > 0] the velocities are
    left as they are; otherwise, with [e] the smaller restitution and
    [j = -(1+e) * velAlongNormal / invMassSum], the velocity of [A] loses
    [j*normal*invMassA] and that of [B] gains [j*normal*invMassB]; a static
    body is not touched. *)
Theorem impulse_is_applied_unless_separating
        (w : World R) (A B : Handle) (n : Vec2 R) (p : R) :
  A <> B ->
  let a := heap w A in
  let b := heap w B in
  let invMassSum := (if static a then 0 else invMass a)
                    + (if static b then 0 else invMass b) in
  0 < invMassSum ->
  let w' := World__resolveCollision A B n p w in
  let c := 2 / 10 * (p / invMassSum) in
  let velAlongNormal := (x (velocity b) - x (velocity a)) * x n
                        + (y (velocity b) - y (velocity a)) * y n in
  let e := Rmin (restitution a) (restitution b) in
  let j := - (1 + e) * velAlongNormal / invMassSum in
  (position (heap w' A)
     = (if static a then position a
        else mkVec2 (x (position a) - x n * c * invMass a)
                    (y (position a) - y n * c * invMass a)) /\
   position (heap w' B)
     = (if static b then position b
        else mkVec2 (x (position b) + x n * c * invMass b)
                    (y (position b) + y n * c * invMass b))) /\
  (0 < velAlongNormal ->
   velocity (heap w' A) = velocity a /\ velocity (heap w' B) = velocity b) /\
  (~ 0 < velAlongNormal ->
   velocity (heap w' A)
     = (if static a then velocity a
        else mkVec2 (x (velocity a) - x n * j * invMass a)
                    (y (velocity a) - y n * j * invMass a)) /\
   velocity (heap w' B)
     = (if static b then velocity b
        else mkVec2 (x (velocity b) + x n * j * invMass b)
                    (y (velocity b) + y n * j * invMass b))).
Proof.
  intros Hne a b invMassSum Hpos w' c velAlongNormal e j.
  destruct (resolve_two_bodies A B n p w Hne) as [HA HB].
  fold w' a b in HA, HB.
  assert (Hs : (invMassSum_of a b === lit_0)%num = false).
  { apply Reqb_false. change (invMassSum <> 0). lra. }
  assert (Hc : correction_of a b n p = mkVec2 (x n * c) (y n * c)) by reflexivity.
  assert (Hi : impulse_of a b n = mkVec2 (x n * j) (y n * j)) by reflexivity.
  unfold resolved_A in HA. unfold resolved_B in HB. rewrite Hs, Hc, Hi in HA, HB.
  change (nlt lit_0 (velAlongNormal_of a b n)) with (Rltb 0 velAlongNormal) in HA, HB.
  rewrite HA, HB. clear HA HB Hc Hi Hs.
  clearbody c j velAlongNormal.
  split; [|split].
  - destruct (static a), (static b), (Rltb 0 velAlongNormal); split; reflexivity.
  - intros Hv. apply Rltb_true in Hv. rewrite Hv.
    destruct (static a), (static b); split; reflexivity.
  - intros Hv. apply Rltb_false in Hv. rewrite Hv.
    destruct (static a), (static b); split; reflexivity.
Qed.

(** The constructor makes [invMass] the inverse of a positive [mass]. *)
Lemma constructor_invMass (options : Options R) :
  0 < mass (Body_constructor options) /\
  mass (Body_constructor options) * invMass (Body_constructor options) = 1.
Proof.
  unfold Body_constructor. simpl.
  destruct (o_mass options) as [m|].
  - destruct (Rltb 0 m) eqn:E.
    + apply Rltb_true in E. split; [exact E|]. field. lra.
    + split; [lra|]. field.
  - split; [lra|]. field.
Qed.

(** C5. When neither body is static (and each [invMass] is the inverse of
    its [mass], as the constructor sets it), [_resolveCollision] leaves
    [massA*velocityA + massB*velocityB] as it was: the change of the
    velocity of [A] is minus the change of the velocity of [B] scaled by
    [massB/massA]. *)
Theorem resolution_conserves_momentum
        (w : World R) (A B : Handle) (n : Vec2 R) (p : R) :
  A <> B ->
  static (heap w A) = false ->
  static (heap w B) = false ->
  mass (heap w A) * invMass (heap w A) = 1 ->
  mass (heap w B) * invMass (heap w B) = 1 ->
  let w' := World__resolveCollision A B n p w in
  momentum w' A B = momentum w A B /\
  x (velocity (heap w' A)) - x (velocity (heap w A))
    = - (mass (heap w B) / mass (heap w A))
      * (x (velocity (heap w' B)) - x (velocity (heap w B))) /\
  y (velocity (heap w' A)) - y (velocity (heap w A))
    = - (mass (heap w B) / mass (heap w A))
      * (y (velocity (heap w' B)) - y (velocity (heap w B))).
Proof.
  intros Hne Ha Hb Hma Hmb w'.
  destruct (resolve_two_bodies A B n p w Hne) as [HA HB].
  fold w' in HA, HB. unfold momentum. rewrite HA, HB. clear HA HB.
  unfold resolved_A, resolved_B. rewrite Ha, Hb.
  assert (Hm0 : mass (heap w A) <> 0) by (intros E; rewrite E in Hma; lra).
  assert (Hm1 : mass (heap w B) <> 0) by (intros E; rewrite E in Hmb; lra).
  assert (Hia : invMass (heap w A) = / mass (heap w A)).
  { apply (Rmult_eq_reg_l (mass (heap w A))); [|exact Hm0].
    rewrite Hma. field. exact Hm0. }
  assert (Hib : invMass (heap w B) = / mass (heap w B)).
  { apply (Rmult_eq_reg_l (mass (heap w B))); [|exact Hm1].
    rewrite Hmb. field. exact Hm1. }
  destruct (invMassSum_of (heap w A) (heap w B) === lit_0)%num.
  { split; [reflexivity|split; field; exact Hm0]. }
  destruct (lit_0 <? velAlongNormal_of (heap w A) (heap w B) n)%num; simpl.
  { split; [reflexivity|split; field; exact Hm0]. }
  set (jx := x n * _). set (jy := y n * _).
  rewrite Hia, Hib.
  split; [|split].
  - apply Vec2_eq; simpl; field; split; assumption.
  - field. split; assumption.
  - field. split; assumption.
Qed.

Lemma scaled_length (dx dy k : R) :
  0 <= k ->
  sqrt (dx * k * (dx * k) + dy * k * (dy * k)) = k * sqrt (dx * dx + dy * dy).
Proof.
  intros Hk.
  replace (dx * k * (dx * k) + dy * k * (dy * k))
    with (k * k * (dx * dx + dy * dy)) by ring.
  rewrite sqrt_mult; [|nra|nra].
  now rewrite sqrt_square.
Qed.

(** The distance of the centers once both have been pushed apart along
    the normal [_collide] computes, by [2/10] of the penetration in all. *)
Lemma pushed_apart (dx dy nx ny pen : R) :
  let d := sqrt (dx * dx + dy * dy) in
  (d = 0 \/ (nx = dx / d /\ ny = dy / d /\ 0 <= pen)) ->
  d <= sqrt ((dx + nx * (2 / 10 * pen)) * (dx + nx * (2 / 10 * pen))
             + (dy + ny * (2 / 10 * pen)) * (dy + ny * (2 / 10 * pen))) /\
  (d <> 0 ->
   sqrt ((dx + nx * (2 / 10 * pen)) * (dx + nx * (2 / 10 * pen))
         + (dy + ny * (2 / 10 * pen)) * (dy + ny * (2 / 10 * pen)))
   = d + 2 / 10 * pen).
Proof.
  intros d [H0|(Hx & Hy & Hp)].
  - split; [|contradiction]. rewrite H0. apply sqrt_pos.
  - destruct (Req_dec_T d 0) as [H0|Hn0].
    + split; [|contradiction]. rewrite H0. apply sqrt_pos.
    + assert (Hd : 0 < d) by (pose proof (sqrt_pos (dx * dx + dy * dy)); fold d in H; lra).
      assert (Hk : 0 <= 1 + 2 / 10 * pen / d).
      { assert (0 <= 2 / 10 * pen / d); [|lra].
        apply Rmult_le_pos; [lra|]. apply Rlt_le, Rinv_0_lt_compat, Hd. }
      assert (E : sqrt ((dx + nx * (2 / 10 * pen)) * (dx + nx * (2 / 10 * pen))
                        + (dy + ny * (2 / 10 * pen)) * (dy + ny * (2 / 10 * pen)))
                  = d + 2 / 10 * pen).
      { replace (dx + nx * (2 / 10 * pen)) with (dx * (1 + 2 / 10 * pen / d))
          by (rewrite Hx; field; exact Hn0).
        replace (dy + ny * (2 / 10 * pen)) with (dy * (1 + 2 / 10 * pen / d))
          by (rewrite Hy; field; exact Hn0).
        rewrite (scaled_length dx dy _ Hk). fold d. field. exact Hn0. }
      rewrite E. split; [lra|trivial].
Qed.

Lemma resolved_positions (a b : Body R) (n : Vec2 R) (p : R) :
  let s := invMassSum_of a b in
  s <> 0 ->
  x (position (resolved_B a b n p)) - x (position (resolved_A a b n p))
    = x (position b) - x (position a) + x n * (2 / 10 * p) /\
  y (position (resolved_B a b n p)) - y (position (resolved_A a b n p))
    = y (position b) - y (position a) + y n * (2 / 10 * p).
Proof.
  intros s Hs. unfold resolved_A, resolved_B.
  assert (Hc : correction_of a b n p
               = mkVec2 (x n * (2 / 10 * (p / s))) (y n * (2 / 10 * (p / s))))
    by reflexivity.
  rewrite Hc.
  replace (invMassSum_of a b === lit_0)%num with false
    by (symmetry; apply Reqb_false; exact Hs).
  unfold s in *. rewrite invMassSum_of_R in *.
  destruct (static a), (static b),
    (lit_0 <? velAlongNormal_of a b n)%num; simpl;
    try (exfalso; apply Hs; ring); split; field;
    intros E; apply Hs; lra.
Qed.

(** C6. When [_collide] detects a pair (two distinct bodies), the
    distance of the two centers in the world it hands to the listeners is
    at least the distance it measured: the positional correction never
    deepens the overlap. With a non-zero combined inverse mass and centers
    apart, the new distance is exactly [d + 2/10 * (r - d)]. *)
Theorem correction_never_increases_overlap
        (w : World R) (tr : list (Obs R)) (A B : Handle) :
  A <> B ->
  detected (heap w A) (heap w B) = true ->
  let d := dist_of (heap w A) (heap w B) in
  let r := radii_of (heap w A) (heap w B) in
  let w' := World__resolveCollision A B (normal_of (heap w A) (heap w B)) (r - d) w in
  World__collide emitter (Some A) (Some B) (w, tr)
  = Ok tt (emitter (event_of A B w) w',
           tr ++ [Collided (Some A) (Some B); Dispatched (event_of A B w)]) /\
  d <= dist_of (heap w' A) (heap w' B) /\
  (invMassSum_of (heap w A) (heap w B) <> 0 -> d <> 0 ->
   dist_of (heap w' A) (heap w' B) = d + 2 / 10 * (r - d)).
Proof.
  intros Hne Hdet d r w'.
  split.
  { rewrite collide_two_bodies, Hdet. reflexivity. }
  destruct (resolve_two_bodies A B (normal_of (heap w A) (heap w B)) (r - d) w Hne)
    as [HA HB].
  fold w' in HA, HB. rewrite HA, HB. clear HA HB.
  set (a := heap w A) in *. set (b := heap w B) in *.
  destruct (Req_dec_T (invMassSum_of a b) 0) as [Hs|Hs].
  { unfold resolved_A, resolved_B.
    replace (invMassSum_of a b === lit_0)%num with true
      by (symmetry; apply Reqb_true; exact Hs).
    split; [apply Rle_refl|contradiction]. }
  destruct (resolved_positions a b (normal_of a b) (r - d) Hs) as [Ex Ey].
  rewrite (dist_of_R (resolved_A _ _ _ _) (resolved_B _ _ _ _)), Ex, Ey.
  assert (Hov : overlap a b = true).
  { unfold detected in Hdet. apply andb_true_iff in Hdet. tauto. }
  apply overlap_R in Hov. fold d r in Hov.
  assert (Hn : d = 0 \/ (x (normal_of a b) = (x (position b) - x (position a)) / d /\
                         y (normal_of a b) = (y (position b) - y (position a)) / d /\
                         0 <= r - d)).
  { rewrite normal_of_R. fold d.
    destruct (Req_dec_T d 0) as [H0|Hn0]; [left; exact H0|right].
    simpl. repeat split. lra. }
  unfold d in Hn at 1 2 3. rewrite dist_of_R in Hn.
  destruct (pushed_apart _ _ _ _ _ Hn) as [Hle Heq].
  split.
  - unfold d at 1. rewrite dist_of_R. exact Hle.
  - intros _ Hd0. unfold d at 2. rewrite dist_of_R. apply Heq.
    unfold d in Hd0. rewrite dist_of_R in Hd0. exact Hd0.
Qed.

End Exact.

(** ** Checked arithmetic: the divisions of the resolution *)

Section Checked.

Context {T : Type} {N : Num T}.

Ltac expose_defined :=
  repeat match goal with
         | H : defined _ |- _ => destruct H as [? H]
         | H : Vec2_defined _ |- _ => destruct H as [? ?]
         end.

Ltac split_guards :=
  repeat match goal with
         | |- context [@nseq T N ?u ?v] => destruct (@nseq T N u v) eqn:?; simpl
         | |- context [@nlt T N ?u ?v] => destruct (@nlt T N u v) eqn:?; simpl
         end.

(** On two bodies whose numbers are numbers of [T], [_resolveCollision]
    with such a normal and penetration leaves such positions and
    velocities: its two divisions are by a combined inverse mass that was
    tested against zero. *)
Lemma resolved_defined (a b : Body (option T)) (n : Vec2 (option T)) (p : option T) :
  Vec2_defined (position a) -> Vec2_defined (position b) ->
  Vec2_defined (velocity a) -> Vec2_defined (velocity b) ->
  defined (invMass a) -> defined (invMass b) ->
  defined (restitution a) -> defined (restitution b) ->
  Vec2_defined n -> defined p ->
  Vec2_defined (position (resolved_A a b n p)) /\
  Vec2_defined (velocity (resolved_A a b n p)) /\
  Vec2_defined (position (resolved_B a b n p)) /\
  Vec2_defined (velocity (resolved_B a b n p)).
Proof.
  intros Hpa Hpb Hva Hvb Hia Hib Hra Hrb Hn Hp.
  destruct a as [[pax pay] [vax vay] acca ang_a angv_a ma ia ra fa sha sa].
  destruct b as [[pbx pby] [vbx vby] accb ang_b angv_b mb ib rb fb shb sb].
  destruct n as [nx ny].
  simpl in *. expose_defined. simpl in *. subst.
  unfold resolved_A, resolved_B, correction_of, impulse_of, velAlongNormal_of,
    invMassSum_of, Vec2_defined, defined.
  destruct sa, sb; simpl; split_guards;
    repeat split; eexists; reflexivity.
Qed.

Lemma penetration_defined (a b : Body (option T)) :
  Body_defined a -> Body_defined b -> defined (penetration_of a b).
Proof.
  intros (Hpa & _ & Hra & _) (Hpb & _ & Hrb & _).
  destruct a as [[pax pay] va acca ang_a angv_a ma ia ra fa [ta rda] sa].
  destruct b as [[pbx pby] vb accb ang_b angv_b mb ib rb fb [tb rdb] sb].
  simpl in *. expose_defined. simpl in *. subst.
  unfold penetration_of, radii_of, dist_of. simpl. eexists. reflexivity.
Qed.

End Checked.

(** ** Removing bodies *)

Section Removal.

Context {T : Type} {N : Num T}.

(** C8. [removeBody] never raises (it is a total function of the state)
    and is idempotent: for a handle that is not in the body list, be it
    unknown or already removed, the whole state is left as it is; in a
    world whose handles are distinct, as [PhysicsEngine.addBody] keeps
    them, a removed handle is no longer in the list, so removing a body
    twice is removing it once. *)
Theorem removeBody_is_idempotent (w : World T) (body : Handle) :
  (~ In body (bodies w) -> World_removeBody body w = w) /\
  (NoDup (bodies w) -> ~ In body (bodies (World_removeBody body w))) /\
  (NoDup (bodies w) ->
   World_removeBody body (World_removeBody body w) = World_removeBody body w).
Proof.
  assert (Habs : forall w' : World T,
             ~ In body (bodies w') -> World_removeBody body w' = w').
  { intros w' Hn. rewrite World_removeBody_bodies.
    rewrite (remove_first_absent _ _ Hn). now destruct w'. }
  assert (Hgone : NoDup (bodies w) -> ~ In body (bodies (World_removeBody body w))).
  { intros Hnd. rewrite World_removeBody_bodies. simpl.
    now apply remove_first_NoDup. }
  split; [apply Habs|]. split; [exact Hgone|].
  intros Hnd. apply Habs, Hgone, Hnd.
Qed.

(** C9, as the code has it. [removeBody] takes effect at the call: the
    body list it leaves is the list without the first occurrence of the
    handle (nothing else changes), so with distinct handles the body is
    out of the collection at once; and a removal made by a listener during
    a step is in force as soon as [_collide] returns, for the rest of the
    pair enumeration. *)
Theorem removeBody_takes_effect_at_once (w : World T) (body : Handle) :
  bodies (World_removeBody body w) = remove_first body (bodies w) /\
  heap (World_removeBody body w) = heap w /\
  (NoDup (bodies w) -> ~ In body (bodies (World_removeBody body w))) /\
  (forall (A B : Handle) (tr : list (Obs T)),
     detected (heap w A) (heap w B) = true ->
     exists w',
       World__collide (removing_listener body) (Some A) (Some B) (w, tr)
       = Ok tt (w', tr ++ [Collided (Some A) (Some B); Dispatched (event_of A B w)]) /\
       bodies w' = remove_first body (bodies w)).
Proof.
  split; [now rewrite World_removeBody_bodies|].
  split; [now rewrite World_removeBody_bodies|].
  split.
  - intros Hnd. rewrite World_removeBody_bodies. simpl. now apply remove_first_NoDup.
  - intros A B tr Hdet. rewrite collide_two_bodies, Hdet.
    eexists. split; [reflexivity|].
    unfold removing_listener, PhysicsEngine_removeBody.
    rewrite World_removeBody_bodies. simpl.
    now destruct (resolve_moved A B (normal_of (heap w A) (heap w B))
                    (penetration_of (heap w A) (heap w B)) w) as [-> _].
Qed.

End Removal.

(** ** The bodies a step works on *)

Section StepBodies.

Context {T : Type} {N : Num T}.

Variable emitter : CollisionEvent T -> World T -> World T.

Lemma integrated_app (t1 t2 : list (Obs T)) :
  integrated (t1 ++ t2) = integrated t1 ++ integrated t2.
Proof. apply flat_map_app. Qed.

Lemma collided_app (t1 t2 : list (Obs T)) :
  collided (t1 ++ t2) = collided t1 ++ collided t2.
Proof. apply flat_map_app. Qed.

Lemma skipn_nth_error (l : list Handle) (i : nat) (h : Handle) :
  nth_error l i = Some h -> skipn i l = h :: skipn (S i) l.
Proof.
  revert i. induction l as [|a l IH]; intros [|i] E; try discriminate.
  - now injection E as ->.
  - simpl in E. now apply IH.
Qed.

Lemma nth_error_in_range (l : list Handle) (i : nat) :
  i < List.length l -> exists h, nth_error l i = Some h.
Proof.
  intros Hi. destruct (nth_error l i) eqn:E; [eauto|].
  apply nth_error_None in E. lia.
Qed.

Lemma bind_Ok {A B : Type} (m : M T A) (k : A -> M T B) (s s' : St T) (a : A) :
  m s = Ok a s' -> bind m k s = k a s'.
Proof. unfold bind. now intros ->. Qed.

Lemma for_range_S (i n : nat) (body : nat -> M T unit) :
  for_range i (S n) body = bind (body i) (fun _ => for_range (S i) n body).
Proof. reflexivity. Qed.

Lemma integrate_body (dt : T) (i : nat) (w : World T) (tr : list (Obs T)) (h : Handle) :
  nth_error (bodies w) i = Some h ->
  bind (bodies_at i) (fun b => integrate_at b dt) (w, tr)
  = Ok tt (update h (fun body => Body_integrate body dt) w, tr ++ [Integrated h]).
Proof.
  intros Hh. unfold bind, bodies_at, integrate_at, deref, note, modify, ret. simpl.
  now rewrite Hh.
Qed.

(** The first loop of [step]. *)
Lemma integrate_loop (dt : T) (n i : nat) (w : World T) (tr : list (Obs T)) :
  i + n = List.length (bodies w) ->
  exists w',
    for_range i n (fun k => bind (bodies_at k) (fun b => integrate_at b dt)) (w, tr)
    = Ok tt (w', tr ++ map (@Integrated T) (skipn i (bodies w))) /\
    bodies w' = bodies w.
Proof.
  revert i w tr. induction n as [|n IH]; intros i w tr Hlen.
  - exists w. simpl. unfold ret.
    rewrite skipn_all2 by lia. simpl. now rewrite app_nil_r.
  - destruct (nth_error_in_range (bodies w) i) as [h Hh]; [lia|].
    rewrite for_range_S.
    rewrite (bind_Ok _ _ _ _ _ (integrate_body dt i w tr h Hh)).
    set (w1 := update h (fun body => Body_integrate body dt) w).
    destruct (IH (S i) w1 (tr ++ [Integrated h])) as (w' & E & Hb);
      [simpl; lia|].
    exists w'. rewrite E. simpl in *.
    rewrite (skipn_nth_error _ _ _ Hh). simpl.
    rewrite <- app_assoc. simpl. split; [reflexivity|exact Hb].
Qed.

Lemma integrated_map (l : list Handle) : integrated (map (@Integrated T) l) = l.
Proof. induction l as [|a l IH]; simpl; [reflexivity|now rewrite IH]. Qed.

Lemma collided_map (l : list Handle) : collided (map (@Integrated T) l) = [].
Proof. induction l as [|a l IH]; simpl; [reflexivity|exact IH]. Qed.

Lemma final_bind {A B : Type} (m : M T A) (k : A -> M T B) (s : St T) :
  final (bind m k s)
  = match m s with
    | Ok a s' => final (k a s')
    | TypeError s' => s'
    end.
Proof. unfold bind. now destruct (m s). Qed.

(** A property of the state that each iteration keeps, even when it
    raises, holds when the loop ends. *)
Lemma for_range_invariant (P : St T -> Prop) (body : nat -> M T unit) :
  (forall i s, P s -> P (final (body i s))) ->
  forall n i s, P s -> P (final (for_range i n body s)).
Proof.
  intros Hbody. induction n as [|n IH]; intros i s Hs; [exact Hs|].
  rewrite for_range_S, final_bind.
  specialize (Hbody i s Hs). destruct (body i s) as [[] s'|s']; simpl in Hbody.
  - now apply IH.
  - exact Hbody.
Qed.

(** [_collide] calls [integrate] on nothing, whatever it is given and
    whatever the listeners do. *)
Lemma collide_integrates_nothing (A B : option Handle) (s : St T) :
  integrated (snd (final (World__collide emitter A B s))) = integrated (snd s).
Proof.
  destruct s as [w tr].
  destruct A as [a|], B as [b|].
  - rewrite collide_two_bodies. destruct (detected (heap w a) (heap w b)); simpl;
      rewrite integrated_app; simpl; now rewrite app_nil_r.
  - cbv [World__collide dispatchEvent bind ret field deref modify note throw fst snd].
    destruct (static (heap w a)); simpl;
      [rewrite integrated_app; simpl; now rewrite app_nil_r|].
    destruct (is_circle (shape (heap w a))); simpl;
      rewrite integrated_app; simpl; now rewrite app_nil_r.
  - simpl. rewrite integrated_app. simpl. now rewrite app_nil_r.
  - simpl. rewrite integrated_app. simpl. now rewrite app_nil_r.
Qed.

(** The bodies [step] integrates are the bodies in the list when it is
    entered, whatever the listeners do afterwards. *)
Lemma step_integrates_the_bodies_at_entry (dt : T) (w : World T) :
  integrated (snd (final (World_step emitter dt (w, [])))) = bodies w.
Proof.
  destruct (integrate_loop dt (List.length (bodies w)) 0 w []) as (w1 & E1 & Hb1);
    [reflexivity|].
  unfold World_step.
  rewrite (bind_Ok bodies_length _ (w, []) (w, []) (List.length (bodies w)) eq_refl).
  rewrite (bind_Ok _ _ _ _ _ E1).
  apply (for_range_invariant (fun s => integrated (snd s) = bodies w)).
  - intros i s Hs. rewrite final_bind. simpl.
    apply (for_range_invariant (fun s => integrated (snd s) = bodies w)); [|exact Hs].
    intros j s' Hs'. rewrite final_bind. simpl.
    now rewrite collide_integrates_nothing.
  - simpl. apply integrated_map.
Qed.

Lemma collide_keeps_static_bodies (A B : option Handle) (s : St T) (h : Handle) :
  spares_static_bodies emitter ->
  static (heap (fst s) h) = true ->
  heap (fst (final (World__collide emitter A B s))) h = heap (fst s) h.
Proof.
  intros Hem Hs. destruct s as [w tr]. simpl in Hs.
  destruct A as [a|], B as [b|].
  - rewrite collide_two_bodies.
    destruct (detected (heap w a) (heap w b)); simpl; [|reflexivity].
    destruct (resolve_moved a b (normal_of (heap w a) (heap w b))
                (penetration_of (heap w a) (heap w b)) w) as (_ & _ & Hm).
    destruct (Hm h) as [Hfix _]. rewrite Hem; rewrite (Hfix Hs); [reflexivity|exact Hs].
  - cbv [World__collide dispatchEvent bind ret field deref modify note throw fst snd].
    destruct (static (heap w a)); simpl; [reflexivity|].
    destruct (is_circle (shape (heap w a))); reflexivity.
  - reflexivity.
  - reflexivity.
Qed.

(** A whole step, with such listeners, leaves every static body as it
    was, whether it returns or raises. *)
Lemma step_keeps_static_bodies (dt : T) (w : World T) (tr : list (Obs T)) (h : Handle) :
  spares_static_bodies emitter ->
  static (heap w h) = true ->
  heap (fst (final (World_step emitter dt (w, tr)))) h = heap w h.
Proof.
  intros Hem Hs.
  set (P := fun s : St T => heap (fst s) h = heap w h).
  assert (Hcollide : forall A B s, P s -> P (final (World__collide emitter A B s))).
  { intros A B s Hp. unfold P in *.
    rewrite collide_keeps_static_bodies; [exact Hp|exact Hem|].
    rewrite Hp. exact Hs. }
  assert (Hintegrate : forall i s, P s ->
             P (final (bind (bodies_at i) (fun b => integrate_at b dt) s))).
  { intros i [w1 tr1] Hp. unfold P in *. simpl in Hp.
    cbv [bind bodies_at integrate_at deref ret note modify throw fst snd].
    destruct (nth_error (bodies w1) i) as [k|]; cbn [final fst snd]; [|exact Hp].
    destruct (Nat.eq_dec h k) as [<-|Hne].
    - rewrite heap_update_eq. unfold Body_integrate. rewrite Hp, Hs. reflexivity.
    - rewrite heap_update_neq by exact Hne. exact Hp. }
  unfold World_step.
  rewrite (bind_Ok bodies_length _ (w, tr) (w, tr) (List.length (bodies w)) eq_refl).
  rewrite final_bind.
  pose proof (for_range_invariant P
                (fun i => bind (bodies_at i) (fun b => integrate_at b dt))
                Hintegrate (List.length (bodies w)) 0 (w, tr) eq_refl) as H1.
  destruct (for_range 0 (List.length (bodies w))
              (fun i => bind (bodies_at i) (fun b => integrate_at b dt)) (w, tr))
    as [[] s1|s1]; simpl in H1; [|exact H1].
  apply (for_range_invariant P); [|exact H1].
  intros i s Hp. rewrite final_bind. simpl.
  apply (for_range_invariant P); [|exact Hp].
  intros j s' Hp'. rewrite final_bind. simpl. now apply Hcollide.
Qed.

Section AppendingListeners.

Hypothesis emitter_appends : appends_only emitter.

Lemma collide_outcome (A B : Handle) (w : World T) (tr : list (Obs T)) :
  exists w' tr',
    World__collide emitter (Some A) (Some B) (w, tr) = Ok tt (w', tr') /\
    (exists extra, bodies w' = bodies w ++ extra) /\
    integrated tr' = integrated tr /\
    collided tr' = collided tr ++ [(Some A, Some B)].
Proof.
  rewrite collide_two_bodies.
  destruct (detected (heap w A) (heap w B)).
  - eexists _, _. split; [reflexivity|].
    split; [|split].
    + destruct (emitter_appends (event_of A B w)
                  (World__resolveCollision A B (normal_of (heap w A) (heap w B))
                     (penetration_of (heap w A) (heap w B)) w)) as [extra E].
      exists extra. rewrite E.
      now destruct (resolve_moved A B (normal_of (heap w A) (heap w B))
                      (penetration_of (heap w A) (heap w B)) w) as [-> _].
    + rewrite integrated_app. simpl. now rewrite app_nil_r.
    + rewrite collided_app. reflexivity.
  - eexists _, _. split; [reflexivity|].
    split; [|split].
    + exists []. now rewrite app_nil_r.
    + rewrite integrated_app. simpl. now rewrite app_nil_r.
    + rewrite collided_app. reflexivity.
Qed.

Lemma bodies_at_prefix (bs extra : list Handle) (w : World T) (tr : list (Obs T))
      (i : nat) (h : Handle) :
  bodies w = bs ++ extra -> nth_error bs i = Some h ->
  bodies_at i (w, tr) = Ok (Some h) (w, tr).
Proof.
  intros Hb Hh. unfold bodies_at. simpl. rewrite Hb.
  rewrite nth_error_app1 by (apply nth_error_Some; congruence).
  now rewrite Hh.
Qed.

(** The inner loop of [step], for the body [A] read by the outer loop. *)
Lemma collide_inner_loop (bs : list Handle) (A : Handle) (k j : nat)
      (w : World T) (tr : list (Obs T)) :
  (exists extra, bodies w = bs ++ extra) ->
  j + k = List.length bs ->
  exists w' tr',
    for_range j k
      (fun j => bind (bodies_at j) (fun B => World__collide emitter (Some A) B)) (w, tr)
    = Ok tt (w', tr') /\
    (exists extra, bodies w' = bs ++ extra) /\
    integrated tr' = integrated tr /\
    collided tr' = collided tr ++ map (fun b => (Some A, Some b)) (skipn j bs).
Proof.
  revert j w tr. induction k as [|k IH]; intros j w tr [extra Hb] Hlen.
  - exists w, tr. simpl. unfold ret. rewrite skipn_all2 by lia. simpl.
    rewrite app_nil_r. eauto.
  - destruct (nth_error_in_range bs j) as [h Hh]; [lia|].
    rewrite for_range_S.
    destruct (collide_outcome A h w tr) as (w1 & tr1 & E1 & [ex1 Hb1] & Hi1 & Hc1).
    assert (Estep : bind (bodies_at j) (fun B => World__collide emitter (Some A) B) (w, tr)
                    = Ok tt (w1, tr1)).
    { rewrite (bind_Ok _ _ _ _ _ (bodies_at_prefix bs extra w tr j h Hb Hh)). exact E1. }
    rewrite (bind_Ok _ _ _ _ _ Estep).
    destruct (IH (S j) w1 tr1) as (w' & tr' & E & Hb' & Hi & Hc).
    { exists (extra ++ ex1). rewrite Hb1, Hb. now rewrite app_assoc. }
    { lia. }
    exists w', tr'. split; [exact E|]. split; [exact Hb'|].
    split; [congruence|].
    rewrite Hc, Hc1, (skipn_nth_error _ _ _ Hh). simpl.
    now rewrite <- app_assoc.
Qed.

(** The outer loop of [step]. *)
Lemma collide_outer_loop (bs : list Handle) (n i : nat)
      (w : World T) (tr : list (Obs T)) :
  (exists extra, bodies w = bs ++ extra) ->
  i + n = List.length bs ->
  exists w' tr',
    for_range i n
      (fun i => bind (bodies_at i) (fun A =>
         for_range (i + 1) (List.length bs - (i + 1))
           (fun j => bind (bodies_at j) (fun B => World__collide emitter A B))))
      (w, tr)
    = Ok tt (w', tr') /\
    (exists extra, bodies w' = bs ++ extra) /\
    integrated tr' = integrated tr /\
    collided tr' = collided tr ++ ascending_pairs (skipn i bs).
Proof.
  revert i w tr. induction n as [|n IH]; intros i w tr [extra Hb] Hlen.
  - exists w, tr. simpl. unfold ret. rewrite skipn_all2 by lia. simpl.
    rewrite app_nil_r. eauto.
  - destruct (nth_error_in_range bs i) as [h Hh]; [lia|].
    rewrite for_range_S.
    destruct (collide_inner_loop bs h (List.length bs - (i + 1)) (i + 1) w tr)
      as (w1 & tr1 & E1 & Hb1 & Hi1 & Hc1); [eauto|lia|].
    match goal with
    | |- context [bind ?m ?k (w, tr)] =>
        assert (Estep : m (w, tr) = Ok tt (w1, tr1))
    end.
    { rewrite (bind_Ok _ _ _ _ _ (bodies_at_prefix bs extra w tr i h Hb Hh)). exact E1. }
    rewrite (bind_Ok _ _ _ _ _ Estep).
    destruct (IH (S i) w1 tr1) as (w' & tr' & E & Hb' & Hi & Hc); [exact Hb1|lia|].
    exists w', tr'. split; [exact E|]. split; [exact Hb'|].
    split; [congruence|].
    rewrite Hc, Hc1, (skipn_nth_error _ _ _ Hh). simpl.
    replace (i + 1) with (S i) by lia.
    now rewrite <- app_assoc.
Qed.

Lemma ascending_pairs_in (l : list Handle) (p : option Handle * option Handle) :
  In p (ascending_pairs l) ->
  exists a b, p = (Some a, Some b) /\ In a l /\ In b l.
Proof.
  induction l as [|a l IH]; simpl; [tauto|].
  rewrite in_app_iff, in_map_iff. intros [(b & <- & Hb)|Hin].
  - exists a, b. auto.
  - destruct (IH Hin) as (a' & b' & -> & Ha & Hb). exists a', b'. auto.
Qed.

Lemma step_with_appending_listeners (dt : T) (w : World T) :
  exists w' tr,
    World_step emitter dt (w, []) = Ok tt (w', tr) /\
    integrated tr = bodies w /\
    collided tr = ascending_pairs (bodies w) /\
    (exists extra, bodies w' = bodies w ++ extra) /\
    (forall h, ~ In h (bodies w) ->
       ~ In h (integrated tr) /\
       forall p, In p (collided tr) -> fst p <> Some h /\ snd p <> Some h).
Proof.
  destruct (integrate_loop dt (List.length (bodies w)) 0 w []) as (w1 & E1 & Hb1);
    [reflexivity|].
  destruct (collide_outer_loop (bodies w) (List.length (bodies w)) 0 w1
              ([] ++ map (@Integrated T) (skipn 0 (bodies w))))
    as (w' & tr & E2 & Hb2 & Hi2 & Hc2).
  { exists []. now rewrite app_nil_r. }
  { reflexivity. }
  simpl in Hi2, Hc2. rewrite integrated_map in Hi2. rewrite collided_map in Hc2.
  simpl in Hc2.
  exists w', tr. split.
  { unfold World_step.
    rewrite (bind_Ok bodies_length _ (w, []) (w, []) (List.length (bodies w)) eq_refl).
    rewrite (bind_Ok _ _ _ _ _ E1). exact E2. }
  split; [exact Hi2|]. split; [exact Hc2|]. split; [exact Hb2|].
  intros h Hn. rewrite Hi2, Hc2. split; [exact Hn|].
  intros p Hp. destruct (ascending_pairs_in _ _ Hp) as (a & b & -> & Ha & Hb).
  simpl. split; intros E; injection E as ->; contradiction.
Qed.

End AppendingListeners.

(** C10, as the code has it. [step] calls [integrate] on exactly the
    bodies that were in the list when it was entered, in order, whatever
    the listeners do. When the listeners only push bodies (none removes or
    reorders them), [step] returns and calls [_collide] on exactly the
    pairs of those bodies, in ascending index order, whatever was pushed
    meanwhile: a body that was not in the list at entry is neither
    integrated nor passed to [_collide] during that step. *)
Theorem step_works_on_the_bodies_at_entry (dt : T) (w : World T) :
  integrated (snd (final (World_step emitter dt (w, [])))) = bodies w /\
  (appends_only emitter ->
   exists w' tr,
     World_step emitter dt (w, []) = Ok tt (w', tr) /\
     integrated tr = bodies w /\
     collided tr = ascending_pairs (bodies w) /\
     (exists extra, bodies w' = bodies w ++ extra) /\
     (forall h, ~ In h (bodies w) ->
        ~ In h (integrated tr) /\
        forall p, In p (collided tr) -> fst p <> Some h /\ snd p <> Some h)).
Proof.
  split.
  - apply step_integrates_the_bodies_at_entry.
  - intros Happ. apply step_with_appending_listeners, Happ.
Qed.

(** In a world whose handles are distinct, as the bookkeeping of
    [PhysicsEngine] keeps them, every pair the step passes to [_collide]
    is a pair of two different objects. *)
Lemma ascending_pairs_distinct (l : list Handle) (a b : Handle) :
  NoDup l -> In (Some a, Some b) (ascending_pairs l) -> a <> b.
Proof.
  induction 1 as [|c l Hc Hl IH]; simpl; [tauto|].
  rewrite in_app_iff, in_map_iff. intros [(b' & E & Hb)|Hin].
  - injection E as -> ->. intros ->. contradiction.
  - apply IH, Hin.
Qed.

End StepBodies.

(** ** Static bodies *)

Section StaticBodies.

Context {T : Type} {N : Num T}.

(** C3. A body flagged [static] keeps its position and its velocity under
    [applyForce] with any force, under [integrate] with any [dt], and under
    [_resolveCollision] for any pair of bodies, any normal and any
    penetration (whether or not the static body is one of the pair); so a
    whole [step] leaves it as it was, whatever it collides with, unless a
    listener moves it. *)
Theorem static_body_is_never_moved (w : World T) (h : Handle) :
  static (heap w h) = true ->
  (forall force,
     position (Body_applyForce (heap w h) force) = position (heap w h) /\
     velocity (Body_applyForce (heap w h) force) = velocity (heap w h)) /\
  (forall dt,
     position (Body_integrate (heap w h) dt) = position (heap w h) /\
     velocity (Body_integrate (heap w h) dt) = velocity (heap w h)) /\
  (forall A B normal penetration,
     position (heap (World__resolveCollision A B normal penetration w) h)
       = position (heap w h) /\
     velocity (heap (World__resolveCollision A B normal penetration w) h)
       = velocity (heap w h)) /\
  (forall emitter dt tr,
     spares_static_bodies emitter ->
     heap (fst (final (World_step emitter dt (w, tr)))) h = heap w h).
Proof.
  intros Hs. split; [|split; [|split]].
  - intros force. unfold Body_applyForce. rewrite Hs. split; reflexivity.
  - intros dt. unfold Body_integrate. rewrite Hs. split; reflexivity.
  - intros A B n p.
    destruct (resolve_moved A B n p w) as (_ & _ & Hm).
    destruct (Hm h) as [Hfix _]. rewrite (Hfix Hs). split; reflexivity.
  - intros emitter dt tr Hem. now apply step_keeps_static_bodies.
Qed.

End StaticBodies.

(** * The properties on concrete scenes *)

(** Witness of C1: two unit circles at the same place; the pair is
    registered. *)
Lemma collision_is_registered_on_two_circles :
  (static (heap two_circles 0) && static (heap two_circles 1) = false /\
   is_circle (shape (heap two_circles 0)) = true /\
   is_circle (shape (heap two_circles 1)) = true) /\
  exists e w',
    World__collide (fun _ w => w) (Some 0) (Some 1) (two_circles, [])
    = Ok tt (w', [] ++ [Collided (Some 0) (Some 1); Dispatched e]).
Proof.
  split; [repeat split; reflexivity|].
  pose proof (collision_is_registered_iff_overlap (fun _ w => w) two_circles [] 0 1
                eq_refl eq_refl eq_refl) as H.
  cbv zeta in H. destruct H as (_ & _ & _ & H). apply H. right.
  unfold two_circles, scene. simpl.
  replace ((0 - 0) * (0 - 0) + (0 - 0) * (0 - 0))%R with 0%R by ring.
  apply sqrt_0.
Defined.

(** Witness of C2: a circle moving at [(3, 4)], two steps of [1/2]. *)
Lemma integrate_twice_on_a_moving_circle :
  static (heap two_circles 0) = false /\
  position (integrate_times 2 (1 / 2)%R (heap two_circles 0))
  = @mkVec2 R (0 + INR 2 * (3 * (1 / 2)))%R (0 + INR 2 * (4 * (1 / 2)))%R.
Proof.
  split; [reflexivity|].
  destruct (integrate_is_semi_implicit_euler (heap two_circles 0) (1 / 2)%R eq_refl)
    as [_ H].
  destruct (H eq_refl 2) as [_ Hp]. exact Hp.
Defined.

(** Witness of C3: a static circle hit by a moving one. *)
Lemma static_wall_is_not_moved :
  (static (heap wall_and_ball 0) = true /\
   spares_static_bodies (fun (_ : CollisionEvent float) w => w)) /\
  position (heap (World__resolveCollision 0 1 (mkVec2 1 0)%float 2%float wall_and_ball) 0)
  = position (heap wall_and_ball 0) /\
  velocity (heap (World__resolveCollision 0 1 (mkVec2 1 0)%float 2%float wall_and_ball) 0)
  = velocity (heap wall_and_ball 0) /\
  heap (fst (final (World_step (fun _ w => w) 1%float (wall_and_ball, [])))) 0
  = heap wall_and_ball 0.
Proof.
  assert (Hem : spares_static_bodies (fun (_ : CollisionEvent float) w => w))
    by (intros e w h _; reflexivity).
  split; [split; [reflexivity|exact Hem]|].
  destruct (static_body_is_never_moved wall_and_ball 0 eq_refl) as (_ & _ & H & Hstep).
  destruct (H 0 1 (mkVec2 1 0)%float 2%float) as [Hp Hv].
  split; [exact Hp|]. split; [exact Hv|].
  exact (Hstep (fun _ w => w) 1%float [] Hem).
Defined.

(** Witness of C4: two circles pushed apart along [(1, 0)]. *)
Lemma impulse_on_two_circles :
  (0 <> 1 /\
   (0 < (if static (heap two_circles 0%nat) then 0 else invMass (heap two_circles 0%nat))
        + (if static (heap two_circles 1%nat) then 0 else invMass (heap two_circles 1%nat)))%R) /\
  position (heap (World__resolveCollision 0 1 (mkVec2 1 0)%R 2%R two_circles) 0)
  = @mkVec2 R (0 - 1 * (2 / 10 * (2 / (1 / 1 + 1 / 1))) * (1 / 1))%R
              (0 - 0 * (2 / 10 * (2 / (1 / 1 + 1 / 1))) * (1 / 1))%R.
Proof.
  assert (Hpos : (0 < (if static (heap two_circles 0%nat) then 0
                       else invMass (heap two_circles 0%nat))
                      + (if static (heap two_circles 1%nat) then 0
                         else invMass (heap two_circles 1%nat)))%R).
  { unfold two_circles, scene. simpl. lra. }
  split; [split; [discriminate|exact Hpos]|].
  pose proof (impulse_is_applied_unless_separating two_circles 0 1 (mkVec2 1 0)%R 2%R
                (fun E : 0 = 1 => O_S 0 E) Hpos) as H.
  cbv zeta in H. destruct H as [[HA _] _]. exact HA.
Defined.

(** Witness of C5: the same two circles. *)
Lemma momentum_on_two_circles :
  (0 <> 1 /\
   static (heap two_circles 0%nat) = false /\ static (heap two_circles 1%nat) = false /\
   (mass (heap two_circles 0%nat) * invMass (heap two_circles 0%nat) = 1)%R /\
   (mass (heap two_circles 1%nat) * invMass (heap two_circles 1%nat) = 1)%R) /\
  momentum (World__resolveCollision 0 1 (mkVec2 1 0)%R 2%R two_circles) 0 1
  = momentum two_circles 0 1.
Proof.
  pose proof (proj2 (constructor_invMass (circle_at 0 0 3 4 false)%R)) as H0.
  pose proof (proj2 (constructor_invMass (circle_at 0 0 0 0 false)%R)) as H1.
  split; [repeat split; try reflexivity; try discriminate; assumption|].
  exact (proj1 (resolution_conserves_momentum two_circles 0 1 (mkVec2 1 0)%R 2%R
                  (fun E : 0 = 1 => O_S 0 E) eq_refl eq_refl H0 H1)).
Defined.

(** Witness of C6: the same two circles. *)
Lemma correction_on_two_circles :
  (0 <> 1 /\ detected (heap two_circles 0) (heap two_circles 1) = true) /\
  (dist_of (heap two_circles 0%nat) (heap two_circles 1%nat)
   <= dist_of
        (heap (World__resolveCollision 0%nat 1%nat
                 (normal_of (heap two_circles 0%nat) (heap two_circles 1%nat))
                 (radii_of (heap two_circles 0%nat) (heap two_circles 1%nat)
                  - dist_of (heap two_circles 0%nat) (heap two_circles 1%nat))
                 two_circles) 0%nat)
        (heap (World__resolveCollision 0%nat 1%nat
                 (normal_of (heap two_circles 0%nat) (heap two_circles 1%nat))
                 (radii_of (heap two_circles 0%nat) (heap two_circles 1%nat)
                  - dist_of (heap two_circles 0%nat) (heap two_circles 1%nat))
                 two_circles) 1%nat))%R.
Proof.
  assert (Hd : dist_of (heap two_circles 0) (heap two_circles 1) = 0%R).
  { rewrite dist_of_R. unfold two_circles, scene. simpl.
    replace ((0 - 0) * (0 - 0) + (0 - 0) * (0 - 0))%R with 0%R by ring.
    apply sqrt_0. }
  assert (Hdet : detected (heap two_circles 0) (heap two_circles 1) = true).
  { unfold detected.
    replace (overlap (heap two_circles 0) (heap two_circles 1)) with true
      by (symmetry; apply overlap_R; right; exact Hd).
    reflexivity. }
  split; [split; [discriminate|exact Hdet]|].
  pose proof (correction_never_increases_overlap (fun _ w => w) two_circles [] 0 1
                (fun E : 0 = 1 => O_S 0 E) Hdet) as H.
  cbv zeta in H. destruct H as (_ & H & _). exact H.
Defined.

(** Witness of C8: three circles; an unknown handle, and a body removed
    twice. *)
Lemma removeBody_on_three_circles :
  (~ In 7 (bodies three_circles) /\ NoDup (bodies three_circles)) /\
  World_removeBody 7 three_circles = three_circles /\
  World_removeBody 1 (World_removeBody 1 three_circles)
  = World_removeBody 1 three_circles.
Proof.
  assert (Hn : ~ In 7 (bodies three_circles)).
  { simpl. intros [E|[E|[E|[]]]]; discriminate E. }
  assert (Hd : NoDup (bodies three_circles)).
  { simpl. repeat constructor; simpl; intros H;
      repeat (destruct H as [H|H]; [discriminate H|]); exact H. }
  split; [split; assumption|]. split.
  - exact (proj1 (removeBody_is_idempotent three_circles 7) Hn).
  - exact (proj2 (proj2 (removeBody_is_idempotent three_circles 1)) Hd).
Defined.

(** Witness of C9 as the code has it: on three circles, the body a
    listener removes while the first pair is handled is out of the list
    when [_collide] returns. *)
Lemma removal_in_a_listener_on_three_circles :
  (NoDup (bodies three_circles) /\
   detected (heap three_circles 0) (heap three_circles 1) = true) /\
  ~ In 2 (bodies (World_removeBody 2 three_circles)) /\
  exists w',
    World__collide (removing_listener 2) (Some 0) (Some 1) (three_circles, [])
    = Ok tt (w', [] ++ [Collided (Some 0) (Some 1); Dispatched (event_of 0 1 three_circles)]) /\
    bodies w' = [0; 1].
Proof.
  assert (Hd : NoDup (bodies three_circles)).
  { simpl. repeat constructor; simpl; intros H;
      repeat (destruct H as [H|H]; [discriminate H|]); exact H. }
  assert (Hdet : detected (heap three_circles 0) (heap three_circles 1) = true)
    by (vm_compute; reflexivity).
  split; [split; [exact Hd|exact Hdet]|].
  destruct (removeBody_takes_effect_at_once three_circles 2) as (_ & _ & Hgone & H).
  split; [exact (Hgone Hd)|].
  destruct (H 0 1 [] Hdet) as (w' & E & Hb).
  exists w'. split; [exact E|exact Hb].
Defined.

(** Counterexample to C9 as stated: the removed body is out of the
    collection right after the call; and when a listener removes the last
    body during a step, the step goes on with the shortened list, reads
    [undefined] at an index below the cached length and raises. *)
Lemma removal_is_not_deferred :
  In 2 (bodies three_circles) /\
  bodies (World_removeBody 2 three_circles) = [0; 1] /\
  raised (World_step (removing_listener 2) 1%float (three_circles, [])) = true /\
  collided (snd (final (World_step (removing_listener 2) 1%float (three_circles, []))))
  = [(Some 0, Some 1); (Some 0, None)].
Proof.
  split; [simpl; tauto|].
  split; [vm_compute; reflexivity|].
  split; vm_compute; reflexivity.
Qed.

(** Witness of C10 as the code has it: three circles, with a listener
    that adds a body at each collision. *)
Lemma step_on_three_circles_with_an_adding_listener :
  appends_only (adding_listener (circle_at 0 0 0 0 false)%float) /\
  exists w' tr,
    World_step (adding_listener (circle_at 0 0 0 0 false)%float) 1%float (three_circles, [])
    = Ok tt (w', tr) /\
    integrated tr = [0; 1; 2] /\
    collided tr = [(Some 0, Some 1); (Some 0, Some 2); (Some 1, Some 2)].
Proof.
  assert (Happ : appends_only (adding_listener (circle_at 0 0 0 0 false)%float)).
  { intros e w. exists [fresh w]. reflexivity. }
  split; [exact Happ|].
  destruct (proj2 (step_works_on_the_bodies_at_entry
                     (adding_listener (circle_at 0 0 0 0 false)%float)
                     1%float three_circles) Happ)
    as (w' & tr & E & Hi & Hc & _).
  exists w', tr. split; [exact E|]. split; [exact Hi|exact Hc].
Defined.

(** Counterexample to C10 as stated: with a listener that removes the last body and
    adds a new one, the new body (handle [3], not in the list when the
    step was entered) takes the freed index and is passed to [_collide]
    in the same step. *)
Lemma appended_body_is_collided_in_the_same_step :
  ~ In 3 (bodies three_circles) /\
  (let r := World_step (replacing_listener 2 (circle_at 0 0 0 0 false)%float) 1%float
              (three_circles, []) in
   raised r = false /\
   integrated (snd (final r)) = [0; 1; 2] /\
   collided (snd (final r)) = [(Some 0, Some 1); (Some 0, Some 3); (Some 1, Some 3)] /\
   bodies (fst (final r)) = [0; 1; 3; 4; 5]).
Proof.
  split.
  - simpl. intros [E|[E|[E|[]]]]; discriminate E.
  - cbv zeta. repeat split; vm_compute; reflexivity.
Qed.

(** * Further properties of the code *)

(** ** Vectors and contact data, in exact arithmetic *)

Section ExactVectors.

Local Open Scope R_scope.

Lemma length_nonneg (v : Vec2 R) : 0 <= Vec2_length v.
Proof. apply sqrt_pos. Qed.

Lemma length_zero (v : Vec2 R) : Vec2_length v = 0 -> v = mkVec2 0 0.
Proof.
  destruct v as [vx vy]. unfold Vec2_length. simpl. intros H.
  apply sqrt_eq_0 in H; [|nra].
  assert (vx = 0) by nra. assert (vy = 0) by nra. subst. reflexivity.
Qed.

Lemma length_scale (v : Vec2 R) (k : R) :
  0 <= k -> Vec2_length (Vec2_scale v k) = k * Vec2_length v.
Proof. intros Hk. exact (scaled_length (x v) (y v) k Hk). Qed.

(** X1. [normalize] turns a vector that is not the zero vector into the
    unit vector of the same direction, and leaves the zero vector (the
    only vector of length 0) as it is. *)
Theorem normalize_gives_the_unit_vector (v : Vec2 R) :
  (Vec2_length v <> 0 ->
   Vec2_length (Vec2_normalize v) = 1 /\
   v = Vec2_scale (Vec2_normalize v) (Vec2_length v)) /\
  (Vec2_length v = 0 -> Vec2_normalize v = v /\ v = mkVec2 0 0).
Proof.
  unfold Vec2_normalize.
  change (nlt lit_0 (Vec2_length v)) with (Rltb 0 (Vec2_length v)).
  pose proof (length_nonneg v) as Hpos.
  split.
  - intros Hn. assert (Hlt : 0 < Vec2_length v) by lra.
    replace (Rltb 0 (Vec2_length v)) with true by (symmetry; now apply Rltb_true).
    split.
    + change (Vec2_length (Vec2_scale v (1 / Vec2_length v)) = 1).
      rewrite length_scale.
      * field. exact Hn.
      * apply Rlt_le. apply Rdiv_lt_0_compat; lra.
    + change (v = Vec2_scale (Vec2_scale v (1 / Vec2_length v)) (Vec2_length v)).
      apply Vec2_eq; simpl; field; exact Hn.
  - intros H0.
    replace (Rltb 0 (Vec2_length v)) with false
      by (symmetry; apply Rltb_false; lra).
    split; [reflexivity|now apply length_zero].
Qed.

End ExactVectors.

Section ExactContact.

Local Open Scope R_scope.

Variable emitter : CollisionEvent R -> World R -> World R.

Lemma dot_R (u v : Vec2 R) : Vec2_dot u v = x u * x v + y u * y v.
Proof. reflexivity. Qed.

Lemma length_dot (v : Vec2 R) : Vec2_length v * Vec2_length v = Vec2_dot v v.
Proof.
  unfold Vec2_length. rewrite dot_R. simpl. apply sqrt_sqrt. nra.
Qed.

(** The normal [_collide] computes is always a unit vector. *)
Lemma normal_of_unit (a b : Body R) :
  Vec2_dot (normal_of a b) (normal_of a b) = 1.
Proof.
  rewrite normal_of_R.
  destruct (Req_dec_T (dist_of a b) 0) as [H0|Hn0].
  - rewrite dot_R. simpl. ring.
  - rewrite dot_R. cbn [x y].
    set (d := dist_of a b) in *.
    set (dx := x (position b) - x (position a)) in *.
    set (dy := y (position b) - y (position a)) in *.
    assert (H : d * d = dx * dx + dy * dy)
      by exact (length_dot (Vec2_static_sub (position b) (position a))).
    replace (dx / d * (dx / d) + dy / d * (dy / d))
      with ((dx * dx + dy * dy) / (d * d)) by (field; exact Hn0).
    rewrite <- H. field. exact Hn0.
Qed.

(** X2. Whenever [_collide] dispatches a collision (over the reals), the
    normal it reports is a unit vector, and the penetration it reports is
    positive unless the centers coincide; it is the sum of the radii when
    they do. *)
Theorem dispatched_normal_is_unit
        (w : World R) (tr : list (Obs R)) (A B : Handle) :
  detected (heap w A) (heap w B) = true ->
  exists e w',
    World__collide emitter (Some A) (Some B) (w, tr)
    = Ok tt (w', tr ++ [Collided (Some A) (Some B); Dispatched e]) /\
    Vec2_length (normal e) = 1 /\
    (dist_of (heap w A) (heap w B) <> 0 -> 0 < penetration e) /\
    (dist_of (heap w A) (heap w B) = 0 ->
     penetration e = radius (shape (heap w A)) + radius (shape (heap w B)) /\
     normal e = mkVec2 1 0).
Proof.
  intros Hdet. rewrite collide_two_bodies, Hdet.
  eexists _, _. split; [reflexivity|]. cbn [normal penetration event_of].
  set (a := heap w A). set (b := heap w B).
  assert (Hov : overlap a b = true).
  { unfold detected in Hdet. apply andb_true_iff in Hdet. tauto. }
  apply overlap_R in Hov.
  split; [|split].
  - pose proof (length_dot (normal_of a b)) as H. rewrite normal_of_unit in H.
    pose proof (length_nonneg (normal_of a b)). nra.
  - intros Hn0. unfold penetration_of. change (nsub ?u ?v) with (u - v). lra.
  - intros H0. split.
    + unfold penetration_of. rewrite H0. change (nsub ?u ?v) with (u - v).
      unfold radii_of. change (nadd ?u ?v) with (u + v). ring.
    + rewrite normal_of_R. destruct (Req_dec_T (dist_of a b) 0); [reflexivity|contradiction].
Qed.

(** The inverse mass a body takes part in a resolution with. *)
Lemma resolved_velocities (a b : Body R) (n : Vec2 R) (p : R) :
  let ia := if static a then 0 else invMass a in
  let ib := if static b then 0 else invMass b in
  let van := velAlongNormal_of a b n in
  let j := - (1 + Rmin (restitution a) (restitution b)) * van / (ia + ib) in
  ia + ib <> 0 ->
  (0 < van ->
   velocity (resolved_A a b n p) = velocity a /\
   velocity (resolved_B a b n p) = velocity b) /\
  (~ 0 < van ->
   velocity (resolved_A a b n p)
     = mkVec2 (x (velocity a) - x n * j * ia) (y (velocity a) - y n * j * ia) /\
   velocity (resolved_B a b n p)
     = mkVec2 (x (velocity b) + x n * j * ib) (y (velocity b) + y n * j * ib)).
Proof.
  intros ia ib van j Hs.
  assert (Hs' : (invMassSum_of a b === lit_0)%num = false).
  { apply Reqb_false. exact Hs. }
  assert (Hi : impulse_of a b n = mkVec2 (x n * j) (y n * j)) by reflexivity.
  unfold resolved_A, resolved_B. rewrite Hs', Hi.
  change (nlt lit_0 (velAlongNormal_of a b n)) with (Rltb 0 van).
  unfold ia, ib in *. clearbody j van. clear Hi Hs'.
  split.
  - intros Hv. apply Rltb_true in Hv. rewrite Hv.
    destruct (static a), (static b); split; reflexivity.
  - intros Hv. apply Rltb_false in Hv. rewrite Hv.
    destruct (static a), (static b); split; apply Vec2_eq; simpl; ring.
Qed.

(** X3. The impulse of [_resolveCollision] realises the restitution law:
    for two distinct bodies with a non-zero combined inverse mass and a
    unit normal, a pair that is separating along the normal keeps its
    relative velocity, and a pair that is approaching leaves with the
    relative normal velocity reversed and scaled by the smaller
    restitution; so with a non-negative restitution the two bodies never
    approach each other after the resolution. *)
Theorem restitution_reverses_the_approach
        (w : World R) (A B : Handle) (n : Vec2 R) (p : R) :
  A <> B ->
  invMassSum_of (heap w A) (heap w B) <> 0 ->
  Vec2_dot n n = 1 ->
  let w' := World__resolveCollision A B n p w in
  let e := Rmin (restitution (heap w A)) (restitution (heap w B)) in
  (0 < approach w A B n -> approach w' A B n = approach w A B n) /\
  (approach w A B n <= 0 -> approach w' A B n = - e * approach w A B n) /\
  (0 <= e -> 0 <= approach w' A B n).
Proof.
  intros Hne Hs Hn w' e.
  destruct (resolve_two_bodies A B n p w Hne) as [HA HB]. fold w' in HA, HB.
  set (a := heap w A) in *. set (b := heap w B) in *.
  rewrite invMassSum_of_R in Hs.
  destruct (resolved_velocities a b n p Hs) as [Hsep Happ].
  rewrite dot_R in Hn.
  assert (Happ' : approach w A B n <= 0 -> approach w' A B n = - e * approach w A B n).
  { intros Hv. unfold approach, velAlongNormal_of at 1. rewrite HA, HB. fold a b.
    destruct Happ as [EA EB]; [unfold approach in Hv; fold a b in Hv; lra|].
    rewrite EA, EB. rewrite dot_R. cbn [x y Vec2_static_sub].
    change (nsub ?u ?v) with (u - v).
    set (van := velAlongNormal_of a b n) in *.
    set (ia := if static a then 0 else invMass a) in *.
    set (ib := if static b then 0 else invMass b) in *.
    transitivity (((x (velocity b) - x (velocity a)) * x n
                   + (y (velocity b) - y (velocity a)) * y n)
                  + - (1 + e) * van / (ia + ib) * (ia + ib) * (x n * x n + y n * y n)).
    - fold e. ring.
    - rewrite Hn.
      change ((x (velocity b) - x (velocity a)) * x n
              + (y (velocity b) - y (velocity a)) * y n) with van.
      field. exact Hs. }
  assert (Hsep' : 0 < approach w A B n -> approach w' A B n = approach w A B n).
  { intros Hv. unfold approach, velAlongNormal_of. rewrite HA, HB. fold a b.
    destruct (Hsep Hv) as [-> ->]. reflexivity. }
  split; [exact Hsep'|]. split; [exact Happ'|].
  intros He. destruct (Rlt_dec 0 (approach w A B n)) as [Hv|Hv].
  - rewrite (Hsep' Hv). lra.
  - rewrite Happ' by lra. nra.
Qed.

Lemma inverse_of_mass (b : Body R) :
  mass b * invMass b = 1 -> mass b <> 0 /\ invMass b = / mass b.
Proof.
  intros H. assert (Hm : mass b <> 0) by (intros E; rewrite E in H; lra).
  split; [exact Hm|].
  apply (Rmult_eq_reg_l (mass b)); [|exact Hm]. rewrite H. field. exact Hm.
Qed.

(** X4. [_resolveCollision] never creates kinetic energy: for two
    distinct non-static bodies with positive masses (each [invMass] the
    inverse of its [mass]) and a unit normal, an approaching pair loses
    [(1 - e^2) * velAlongNormal^2 / invMassSum] of twice its kinetic
    energy, which is nothing when [e = 1] and never negative when
    [0 <= e <= 1]; a separating pair keeps its energy. *)
Theorem resolution_dissipates_energy
        (w : World R) (A B : Handle) (n : Vec2 R) (p : R) :
  A <> B ->
  static (heap w A) = false -> static (heap w B) = false ->
  0 < mass (heap w A) -> 0 < mass (heap w B) ->
  mass (heap w A) * invMass (heap w A) = 1 ->
  mass (heap w B) * invMass (heap w B) = 1 ->
  Vec2_dot n n = 1 ->
  let w' := World__resolveCollision A B n p w in
  let e := Rmin (restitution (heap w A)) (restitution (heap w B)) in
  let s := invMass (heap w A) + invMass (heap w B) in
  (0 < approach w A B n -> kinetic_energy2 w' A B = kinetic_energy2 w A B) /\
  (approach w A B n <= 0 ->
   kinetic_energy2 w' A B
   = kinetic_energy2 w A B - (1 - e * e) * (approach w A B n * approach w A B n) / s) /\
  (0 <= e <= 1 -> kinetic_energy2 w' A B <= kinetic_energy2 w A B).
Proof.
  intros Hne Ha Hb Hma Hmb Hia Hib Hn w' e s.
  destruct (resolve_two_bodies A B n p w Hne) as [HA HB]. fold w' in HA, HB.
  destruct (inverse_of_mass _ Hia) as [Hma0 Eia].
  destruct (inverse_of_mass _ Hib) as [Hmb0 Eib].
  assert (Hspos : 0 < s).
  { unfold s. rewrite Eia, Eib.
    pose proof (Rinv_0_lt_compat _ Hma). pose proof (Rinv_0_lt_compat _ Hmb). lra. }
  set (a := heap w A) in *. set (b := heap w B) in *.
  assert (Hs : (if static a then 0 else invMass a)
               + (if static b then 0 else invMass b) <> 0).
  { rewrite Ha, Hb. fold s. lra. }
  destruct (resolved_velocities a b n p Hs) as [Hsep Happ].
  rewrite Ha, Hb in Happ. fold s e in Happ.
  assert (HmA : mass (resolved_A a b n p) = mass a).
  { unfold resolved_A. destruct (invMassSum_of a b === lit_0)%num; [reflexivity|].
    rewrite Ha. destruct (lit_0 <? velAlongNormal_of a b n)%num; reflexivity. }
  assert (HmB : mass (resolved_B a b n p) = mass b).
  { unfold resolved_B. destruct (invMassSum_of a b === lit_0)%num; [reflexivity|].
    rewrite Hb. destruct (lit_0 <? velAlongNormal_of a b n)%num; reflexivity. }
  rewrite dot_R in Hn.
  assert (Hsep' : 0 < approach w A B n -> kinetic_energy2 w' A B = kinetic_energy2 w A B).
  { intros Hv. unfold kinetic_energy2. rewrite HA, HB. fold a b. rewrite HmA, HmB.
    destruct (Hsep Hv) as [-> ->]. reflexivity. }
  assert (Happ' : approach w A B n <= 0 ->
                  kinetic_energy2 w' A B
                  = kinetic_energy2 w A B
                    - (1 - e * e) * (approach w A B n * approach w A B n) / s).
  { intros Hv. unfold kinetic_energy2. rewrite HA, HB. fold a b. rewrite HmA, HmB.
    destruct Happ as [EA EB]; [unfold approach in Hv; fold a b in Hv; lra|].
    rewrite EA, EB. cbn [x y]. unfold approach. fold a b.
    set (van := velAlongNormal_of a b n) in *.
    assert (Evan : van = (x (velocity b) - x (velocity a)) * x n
                         + (y (velocity b) - y (velocity a)) * y n) by reflexivity.
    set (j := - (1 + e) * van / s).
    transitivity (mass a * (x (velocity a) * x (velocity a) + y (velocity a) * y (velocity a))
                  + mass b * (x (velocity b) * x (velocity b) + y (velocity b) * y (velocity b))
                  + 2 * j * van + j * j * s * (x n * x n + y n * y n)).
    - rewrite Evan. unfold s. fold a b. rewrite Eia, Eib. field. split; assumption.
    - rewrite Hn. unfold j. field. lra. }
  split; [exact Hsep'|]. split; [exact Happ'|].
  intros [He0 He1]. destruct (Rlt_dec 0 (approach w A B n)) as [Hv|Hv].
  - rewrite (Hsep' Hv). lra.
  - rewrite Happ' by lra.
    assert (0 <= (1 - e * e) * (approach w A B n * approach w A B n) / s); [|lra].
    apply Rmult_le_pos; [|apply Rlt_le, Rinv_0_lt_compat, Hspos].
    apply Rmult_le_pos; nra.
Qed.

(** X5. The positional correction of [_resolveCollision] does not shift
    the common center of mass: for two distinct non-static bodies (each
    [invMass] the inverse of its [mass]) the mass-weighted sum of the two
    positions is the same before and after, whatever the normal and the
    penetration. *)
Theorem correction_keeps_the_center_of_mass
        (w : World R) (A B : Handle) (n : Vec2 R) (p : R) :
  A <> B ->
  static (heap w A) = false -> static (heap w B) = false ->
  mass (heap w A) * invMass (heap w A) = 1 ->
  mass (heap w B) * invMass (heap w B) = 1 ->
  mass_center (World__resolveCollision A B n p w) A B = mass_center w A B.
Proof.
  intros Hne Ha Hb Hia Hib.
  destruct (resolve_two_bodies A B n p w Hne) as [HA HB].
  destruct (inverse_of_mass _ Hia) as [Hma0 Eia].
  destruct (inverse_of_mass _ Hib) as [Hmb0 Eib].
  unfold mass_center. rewrite HA, HB. clear HA HB.
  set (a := heap w A) in *. set (b := heap w B) in *.
  unfold resolved_A, resolved_B. rewrite Ha, Hb.
  destruct (invMassSum_of a b === lit_0)%num; [reflexivity|].
  set (c := correction_of a b n p). clearbody c.
  destruct (lit_0 <? velAlongNormal_of a b n)%num;
    apply Vec2_eq; simpl; rewrite Eia, Eib; field; split; assumption.
Qed.

End ExactContact.

(** ** Coincident centers *)

Section CoincidentCenters.

Local Open Scope R_scope.

Lemma coincident_positions (a b : Body R) :
  coincident a b -> dist_of a b = 0 /\ position b = position a.
Proof.
  intros (_ & _ & _ & Hd). apply Reqb_true in Hd. split; [exact Hd|].
  pose proof (length_zero _ Hd) as E. unfold Vec2_static_sub in E.
  injection E as Ex Ey. change (nsub ?u ?v) with (u - v) in Ex, Ey.
  apply Vec2_eq; lra.
Qed.

Lemma coincident_detected {T : Type} {N : Num T} (a b : Body T) :
  coincident a b ->
  detected a b = true /\ normal_of a b = mkVec2 lit_1 lit_0.
Proof.
  intros (Hst & Hca & Hcb & Hd). unfold detected, overlap, normal_of.
  rewrite Hst, Hca, Hcb, Hd. split; reflexivity.
Qed.

(** What [_resolveCollision] makes of two coincident bodies on the normal
    [(1, 0)], over the reals. *)
Lemma coincident_resolved (a b : Body R) (p : R) :
  let s := invMassSum_of a b in
  let ia := if static a then 0 else invMass a in
  let ib := if static b then 0 else invMass b in
  let v := x (velocity b) - x (velocity a) in
  let j := - (1 + Rmin (restitution a) (restitution b)) * v / s in
  s <> 0 ->
  position (resolved_A a b (mkVec2 1 0) p)
  = mkVec2 (x (position a) - 2 / 10 * (p / s) * ia) (y (position a)) /\
  position (resolved_B a b (mkVec2 1 0) p)
  = mkVec2 (x (position b) + 2 / 10 * (p / s) * ib) (y (position b)) /\
  y (velocity (resolved_A a b (mkVec2 1 0) p)) = y (velocity a) /\
  y (velocity (resolved_B a b (mkVec2 1 0) p)) = y (velocity b) /\
  (0 < v ->
   x (velocity (resolved_A a b (mkVec2 1 0) p)) = x (velocity a) /\
   x (velocity (resolved_B a b (mkVec2 1 0) p)) = x (velocity b)) /\
  (v <= 0 ->
   x (velocity (resolved_A a b (mkVec2 1 0) p)) = x (velocity a) - j * ia /\
   x (velocity (resolved_B a b (mkVec2 1 0) p)) = x (velocity b) + j * ib).
Proof.
  intros s ia ib v j Hs.
  assert (Hvan : velAlongNormal_of a b (mkVec2 1 0) = v).
  { unfold velAlongNormal_of. rewrite dot_R. simpl. unfold v. ring. }
  assert (Hs' : (if static a then 0 else invMass a)
                + (if static b then 0 else invMass b) <> 0)
    by (rewrite <- invMassSum_of_R; exact Hs).
  destruct (resolved_velocities a b (mkVec2 1 0) p Hs') as [Hsep Happ].
  rewrite Hvan in Hsep, Happ.
  rewrite <- invMassSum_of_R in Happ. fold s in Happ. fold j ia ib in Happ.
  cbn [x y] in Happ.
  assert (Hpos : position (resolved_A a b (mkVec2 1 0) p)
                 = mkVec2 (x (position a) - 2 / 10 * (p / s) * ia) (y (position a)) /\
                 position (resolved_B a b (mkVec2 1 0) p)
                 = mkVec2 (x (position b) + 2 / 10 * (p / s) * ib) (y (position b))).
  { unfold resolved_A, resolved_B.
    assert (Hc : correction_of a b (mkVec2 1 0) p
                 = mkVec2 (1 * (2 / 10 * (p / s))) (0 * (2 / 10 * (p / s))))
      by reflexivity.
    rewrite Hc.
    replace (invMassSum_of a b === lit_0)%num with false
      by (symmetry; apply Reqb_false; exact Hs).
    unfold ia, ib.
    destruct (static a), (static b),
      (lit_0 <? velAlongNormal_of a b (mkVec2 1 0))%num; simpl;
      split; apply Vec2_eq; simpl; ring. }
  destruct Hpos as [HpA HpB].
  split; [exact HpA|]. split; [exact HpB|].
  destruct (Rlt_dec 0 v) as [Hv|Hv].
  - destruct (Hsep Hv) as [EA EB]. rewrite EA, EB.
    split; [reflexivity|]. split; [reflexivity|].
    split; [intros _; split; reflexivity|]. intros Hle. exfalso. lra.
  - destruct (Happ Hv) as [EA EB]. rewrite EA, EB. cbn [x y].
    split; [ring|]. split; [ring|].
    split; [intros Hlt; contradiction|]. intros _. split; ring.
Qed.

(** C7. Two circle bodies, not both static, whose centers are at distance
    0. In any arithmetic, [_collide] returns without raising and
    dispatches a collision with the fallback normal [(1, 0)] and the
    penetration [r - d], after [_resolveCollision] with that normal. In
    any checked arithmetic, binary64 included, the positions and
    velocities that resolution leaves on two distinct bodies are numbers
    of the arithmetic: no division by zero takes place. Over the reals,
    with a non-zero combined inverse mass, the resolution moves the two
    centers [0.2 * r] apart along the x axis, leaves the y coordinates
    and the y velocities alone, and gives the x velocities the impulse
    [j = -(1 + e) * v / s] unless the bodies separate. *)
Theorem coincident_centers_use_fallback_normal :
  (forall (T : Type) (N : Num T) (emitter : CollisionEvent T -> World T -> World T)
          (w : World T) (tr : list (Obs T)) (A B : Handle),
     coincident (heap w A) (heap w B) ->
     let p := penetration_of (heap w A) (heap w B) in
     let e := mkCollisionEvent A B (mkVec2 lit_1 lit_0) p in
     World__collide emitter (Some A) (Some B) (w, tr)
     = Ok tt (emitter e (World__resolveCollision A B (mkVec2 lit_1 lit_0) p w),
              tr ++ [Collided (Some A) (Some B); Dispatched e])) /\
  (forall (T : Type) (N : Num T) (w : World (option T)) (A B : Handle),
     A <> B ->
     coincident (heap w A) (heap w B) ->
     Body_defined (heap w A) -> Body_defined (heap w B) ->
     let w' := World__resolveCollision A B (mkVec2 lit_1 lit_0)
                 (penetration_of (heap w A) (heap w B)) w in
     Vec2_defined (position (heap w' A)) /\ Vec2_defined (velocity (heap w' A)) /\
     Vec2_defined (position (heap w' B)) /\ Vec2_defined (velocity (heap w' B))) /\
  (forall (w : World R) (A B : Handle),
     A <> B ->
     coincident (heap w A) (heap w B) ->
     invMassSum_of (heap w A) (heap w B) <> 0 ->
     let a := heap w A in
     let b := heap w B in
     let r := radius (shape a) + radius (shape b) in
     let s := invMassSum_of a b in
     let ia := if static a then 0 else invMass a in
     let ib := if static b then 0 else invMass b in
     let v := x (velocity b) - x (velocity a) in
     let j := - (1 + Rmin (restitution a) (restitution b)) * v / s in
     let w' := World__resolveCollision A B (mkVec2 1 0) (penetration_of a b) w in
     penetration_of a b = r /\
     position (heap w' A) = mkVec2 (x (position a) - 2 / 10 * (r / s) * ia) (y (position a)) /\
     position (heap w' B) = mkVec2 (x (position a) + 2 / 10 * (r / s) * ib) (y (position a)) /\
     x (position (heap w' B)) - x (position (heap w' A)) = 2 / 10 * r /\
     y (velocity (heap w' A)) = y (velocity a) /\
     y (velocity (heap w' B)) = y (velocity b) /\
     (0 < v ->
      x (velocity (heap w' A)) = x (velocity a) /\
      x (velocity (heap w' B)) = x (velocity b)) /\
     (v <= 0 ->
      x (velocity (heap w' A)) = x (velocity a) - j * ia /\
      x (velocity (heap w' B)) = x (velocity b) + j * ib)).
Proof.
  split; [|split].
  - intros T N emitter w tr A B Hco p e.
    destruct (coincident_detected _ _ Hco) as [Hdet Hn].
    rewrite collide_two_bodies, Hdet. unfold event_of. rewrite Hn. reflexivity.
  - intros T N w A B Hne Hco Ha Hb w'.
    destruct (resolve_two_bodies A B (mkVec2 lit_1 lit_0)
                (penetration_of (heap w A) (heap w B)) w Hne) as [HA HB].
    fold w' in HA, HB. rewrite HA, HB.
    pose proof (penetration_defined _ _ Ha Hb) as Hp.
    destruct Ha as (Hpa & Hva & _ & Hia & Hea), Hb as (Hpb & Hvb & _ & Hib & Heb).
    apply resolved_defined; try assumption.
    split; eexists; reflexivity.
  - intros w A B Hne Hco Hs a b r s ia ib v j w'.
    destruct (coincident_positions _ _ Hco) as [Hd Hpos]. fold a b in Hd, Hpos.
    assert (Hp : penetration_of a b = r).
    { unfold penetration_of, radii_of. rewrite Hd. unfold r.
      change (nsub ?u ?t) with (u - t). change (nadd ?u ?t) with (u + t). ring. }
    destruct (resolve_two_bodies A B (mkVec2 1 0) (penetration_of a b) w Hne) as [HA HB].
    fold w' a b in HA, HB. rewrite HA, HB, Hp.
    destruct (coincident_resolved a b r Hs) as (HpA & HpB & HyA & HyB & Hsep & Happ).
    fold s ia ib in HpA, HpB. fold v in Hsep, Happ. fold s ia ib j in Happ.
    rewrite Hpos in HpB.
    split; [reflexivity|]. split; [exact HpA|]. split; [exact HpB|].
    split.
    { rewrite HpA, HpB. cbn [x y]. unfold ia, ib, s in *. rewrite invMassSum_of_R in *.
      field. exact Hs. }
    split; [exact HyA|]. split; [exact HyB|]. split; [exact Hsep|exact Happ].
Qed.

End CoincidentCenters.

(** ** Forces and construction, in exact arithmetic *)

Section ExactBodies.

Local Open Scope R_scope.

Lemma set_acceleration_eq (b : Body R) (u v : Vec2 R) :
  u = v -> set_acceleration b u = set_acceleration b v.
Proof. now intros ->. Qed.

(** X6. Forces accumulate and are consumed by one [integrate]: on a
    non-static body, applying two forces in either order is applying
    their sum; a force applied to a body with no pending acceleration
    changes its momentum over the next [integrate(dt)] by [force * dt]
    (with [invMass] the inverse of [mass]), and has no effect on the
    integrations after that one. *)
Theorem force_changes_momentum (b : Body R) (f g : Vec2 R) (dt : R) :
  static b = false ->
  mass b * invMass b = 1 ->
  (Body_applyForce (Body_applyForce b f) g = Body_applyForce (Body_applyForce b g) f /\
   Body_applyForce (Body_applyForce b f) g = Body_applyForce b (Vec2_static_add f g)) /\
  (acceleration b = mkVec2 0 0 ->
   let b' := Body_integrate (Body_applyForce b f) dt in
   mass b * (x (velocity b') - x (velocity b)) = x f * dt /\
   mass b * (y (velocity b') - y (velocity b)) = y f * dt /\
   acceleration b' = mkVec2 0 0 /\
   forall dt', velocity (Body_integrate b' dt') = velocity b').
Proof.
  intros Hs Hm.
  assert (Hm0 : mass b <> 0) by (intros E; rewrite E in Hm; lra).
  split.
  - unfold Body_applyForce. rewrite Hs. cbn [static set_acceleration].
    rewrite Hs. cbn [acceleration invMass set_acceleration].
    split; unfold set_acceleration; cbn [position velocity angle angularVelocity mass
      invMass restitution friction shape static]; f_equal; apply Vec2_eq; simpl; ring.
  - intros Ha b'.
    assert (Hb' : b' = set_acceleration
                         (set_position
                            (set_velocity b
                               (mkVec2 (x (velocity b) + (0 + x f * invMass b) * dt)
                                       (y (velocity b) + (0 + y f * invMass b) * dt)))
                            (mkVec2 (x (position b)
                                     + (x (velocity b) + (0 + x f * invMass b) * dt) * dt)
                                    (y (position b)
                                     + (y (velocity b) + (0 + y f * invMass b) * dt) * dt)))
                         (mkVec2 0 0)).
    { unfold b', Body_applyForce, Body_integrate. rewrite Hs. cbn [static set_acceleration].
      rewrite Hs, Ha. reflexivity. }
    rewrite Hb'. cbn [velocity set_acceleration set_position set_velocity acceleration x y].
    split; [|split; [|split]].
    + transitivity (x f * dt * (mass b * invMass b)); [ring|rewrite Hm; ring].
    + transitivity (y f * dt * (mass b * invMass b)); [ring|rewrite Hm; ring].
    + reflexivity.
    + intros dt'. unfold Body_integrate.
      cbn [static set_acceleration set_position set_velocity]. rewrite Hs.
      cbn [velocity set_acceleration set_position set_velocity acceleration].
      apply Vec2_eq; simpl; ring.
Qed.

(** X7. The constructor sanitises the mass: whatever the descriptor, the
    body has a positive [mass] (the one given when it is positive, [1]
    otherwise) and [invMass] is its positive inverse; hence the combined
    inverse mass of two constructed bodies is zero exactly when both are
    static, and [_resolveCollision] skips no other pair. *)
Theorem constructor_sanitises_the_mass (oa ob : Options R) :
  let a := Body_constructor oa in
  let b := Body_constructor ob in
  (0 < mass a /\ 0 < invMass a /\ mass a * invMass a = 1) /\
  (forall m, o_mass oa = Some m -> 0 < m -> mass a = m) /\
  (forall m, o_mass oa = Some m -> m <= 0 -> mass a = 1) /\
  (o_mass oa = None -> mass a = 1) /\
  (invMassSum_of a b = 0 <-> static a = true /\ static b = true).
Proof.
  intros a b.
  assert (Hinv : forall o : Options R, 0 < invMass (Body_constructor o)).
  { intros o. destruct (constructor_invMass o) as [Hm Hi].
    destruct (Rle_or_lt (invMass (Body_constructor o)) 0) as [Hle|Hlt]; [|exact Hlt].
    exfalso. nra. }
  split; [|split; [|split; [|split]]].
  - destruct (constructor_invMass oa) as [Hm Hi].
    split; [exact Hm|]. split; [apply Hinv|exact Hi].
  - intros m Hm Hpos. unfold a, Body_constructor. cbn [mass]. rewrite Hm.
    change (nlt lit_0 m) with (Rltb 0 m).
    replace (Rltb 0 m) with true by (symmetry; now apply Rltb_true). reflexivity.
  - intros m Hm Hneg. unfold a, Body_constructor. cbn [mass]. rewrite Hm.
    change (nlt lit_0 m) with (Rltb 0 m).
    replace (Rltb 0 m) with false by (symmetry; apply Rltb_false; lra). reflexivity.
  - intros Hm. unfold a, Body_constructor. cbn [mass]. rewrite Hm. reflexivity.
  - rewrite invMassSum_of_R. pose proof (Hinv oa). pose proof (Hinv ob). fold a b in H, H0.
    destruct (static a), (static b); split; intros; try lra; try tauto;
      try (destruct H1; discriminate).
Qed.

End ExactBodies.

(** ** Whole steps *)

Section WholeSteps.

Context {T : Type} {N : Num T}.

Variable emitter : CollisionEvent T -> World T -> World T.

Lemma integrate_all_bodies (dt : T) (l : list Handle) (w : World T) :
  bodies (integrate_all dt l w) = bodies w.
Proof.
  revert w. induction l as [|h l IH]; intros w; [reflexivity|].
  unfold integrate_all in *. simpl. now rewrite IH.
Qed.

Lemma integrate_all_outside (dt : T) (l : list Handle) (w : World T) (h : Handle) :
  ~ In h l -> heap (integrate_all dt l w) h = heap w h.
Proof.
  revert w. induction l as [|k l IH]; intros w Hn; [reflexivity|].
  unfold integrate_all in *. simpl. rewrite IH by (simpl in Hn; tauto).
  apply heap_update_neq. simpl in Hn. intros ->. tauto.
Qed.

Lemma integrate_all_inside (dt : T) (l : list Handle) (w : World T) (h : Handle) :
  NoDup l -> In h l -> heap (integrate_all dt l w) h = Body_integrate (heap w h) dt.
Proof.
  intros Hnd. revert w. induction Hnd as [|k l Hk Hnd IH]; intros w Hin; [contradiction|].
  unfold integrate_all in *. simpl. destruct Hin as [->|Hin].
  - change (heap (integrate_all dt l (update h (fun body => Body_integrate body dt) w)) h
            = Body_integrate (heap w h) dt).
    rewrite integrate_all_outside by exact Hk.
    exact (heap_update_eq h (fun body => Body_integrate body dt) w).
  - rewrite IH by exact Hin. rewrite heap_update_neq; [reflexivity|].
    intros ->. contradiction.
Qed.

(** The first loop of [step] leaves the world [integrate_all] describes. *)
Lemma integrate_loop_world (dt : T) (n i : nat) (w : World T) (tr : list (Obs T)) :
  i + n = List.length (bodies w) ->
  for_range i n (fun k => bind (bodies_at k) (fun b => integrate_at b dt)) (w, tr)
  = Ok tt (integrate_all dt (skipn i (bodies w)) w,
           tr ++ map (@Integrated T) (skipn i (bodies w))).
Proof.
  revert i w tr. induction n as [|n IH]; intros i w tr Hlen.
  - simpl. unfold ret. rewrite skipn_all2 by lia. simpl. now rewrite app_nil_r.
  - destruct (nth_error_in_range (bodies w) i) as [h Hh]; [lia|].
    rewrite for_range_S.
    rewrite (bind_Ok _ _ _ _ _ (integrate_body dt i w tr h Hh)).
    rewrite IH by (simpl; lia). simpl.
    rewrite (skipn_nth_error _ _ _ Hh). simpl.
    now rewrite <- app_assoc.
Qed.

Lemma quiet_inner_loop (bs : list Handle) (A : Handle) (w : World T) (k j : nat)
      (tr : list (Obs T)) :
  bodies w = bs ->
  j + k = List.length bs ->
  (forall b, In b (skipn j bs) -> detected (heap w A) (heap w b) = false) ->
  for_range j k
    (fun j => bind (bodies_at j) (fun B => World__collide emitter (Some A) B)) (w, tr)
  = Ok tt (w, tr ++ map (fun b => Collided (Some A) (Some b)) (skipn j bs)).
Proof.
  intros Hb. revert j tr. induction k as [|k IH]; intros j tr Hlen Hq.
  - simpl. unfold ret. rewrite skipn_all2 by lia. simpl. now rewrite app_nil_r.
  - destruct (nth_error_in_range bs j) as [h Hh]; [lia|].
    rewrite (skipn_nth_error _ _ _ Hh) in Hq |- *.
    rewrite for_range_S.
    assert (Estep : bind (bodies_at j) (fun B => World__collide emitter (Some A) B) (w, tr)
                    = Ok tt (w, tr ++ [Collided (Some A) (Some h)])).
    { unfold bind, bodies_at. simpl. rewrite Hb, Hh.
      rewrite collide_two_bodies, Hq by (left; reflexivity). reflexivity. }
    rewrite (bind_Ok _ _ _ _ _ Estep).
    rewrite IH; [|lia|intros b Hin; apply Hq; right; exact Hin].
    simpl. now rewrite <- app_assoc.
Qed.

Lemma quiet_outer_loop (bs : list Handle) (w : World T) (n i : nat) (tr : list (Obs T)) :
  bodies w = bs ->
  i + n = List.length bs ->
  (forall a b, In (Some a, Some b) (ascending_pairs (skipn i bs)) ->
               detected (heap w a) (heap w b) = false) ->
  for_range i n
    (fun i => bind (bodies_at i) (fun A =>
       for_range (i + 1) (List.length bs - (i + 1))
         (fun j => bind (bodies_at j) (fun B => World__collide emitter A B))))
    (w, tr)
  = Ok tt (w, tr ++ map (fun p => Collided (fst p) (snd p)) (ascending_pairs (skipn i bs))).
Proof.
  intros Hb. revert i tr. induction n as [|n IH]; intros i tr Hlen Hq.
  - simpl. unfold ret. rewrite skipn_all2 by lia. simpl. now rewrite app_nil_r.
  - destruct (nth_error_in_range bs i) as [h Hh]; [lia|].
    rewrite for_range_S.
    rewrite (skipn_nth_error _ _ _ Hh) in Hq |- *.
    change (ascending_pairs (h :: skipn (S i) bs))
      with (map (fun b => (Some h, Some b)) (skipn (S i) bs)
            ++ ascending_pairs (skipn (S i) bs)) in Hq |- *.
    match goal with
    | |- context [bind ?m ?k (w, tr)] =>
        assert (Estep : m (w, tr)
                        = Ok tt (w, tr ++ map (fun b => Collided (Some h) (Some b))
                                           (skipn (S i) bs)))
    end.
    { unfold bind at 1. unfold bodies_at at 1. simpl. rewrite Hb, Hh.
      replace (i + 1) with (S i) by lia.
      apply (quiet_inner_loop bs h w (List.length bs - S i) (S i) tr); [exact Hb|lia|].
      intros b Hin. apply Hq. apply in_or_app. left.
      apply in_map_iff. exists b. split; [reflexivity|exact Hin]. }
    rewrite (bind_Ok _ _ _ _ _ Estep).
    rewrite IH; [|lia|intros a b Hin; apply Hq; apply in_or_app; right; exact Hin].
    rewrite <- app_assoc, map_app, map_map. reflexivity.
Qed.

(** X8. A step in which nothing overlaps only integrates: when no pair
    of the integrated bodies is detected, [step] returns without
    dispatching anything (the listeners are never run), having called
    [integrate] on each body in order and [_collide] on each pair in
    ascending order; the body list is unchanged, and with distinct
    handles each listed body has been integrated exactly once and every
    other body is untouched. *)
Theorem step_without_overlap_only_integrates (dt : T) (w : World T) :
  (forall a b, In (Some a, Some b) (ascending_pairs (bodies w)) ->
     detected (heap (integrate_all dt (bodies w) w) a)
              (heap (integrate_all dt (bodies w) w) b) = false) ->
  World_step emitter dt (w, [])
  = Ok tt (integrate_all dt (bodies w) w,
           map (@Integrated T) (bodies w)
           ++ map (fun p => Collided (fst p) (snd p)) (ascending_pairs (bodies w))) /\
  bodies (integrate_all dt (bodies w) w) = bodies w /\
  (NoDup (bodies w) ->
   forall h,
     (In h (bodies w) ->
      heap (integrate_all dt (bodies w) w) h = Body_integrate (heap w h) dt) /\
     (~ In h (bodies w) -> heap (integrate_all dt (bodies w) w) h = heap w h)).
Proof.
  intros Hq. split; [|split].
  - unfold World_step.
    rewrite (bind_Ok bodies_length _ (w, []) (w, []) (List.length (bodies w)) eq_refl).
    rewrite (bind_Ok _ _ _ _ _
               (integrate_loop_world dt (List.length (bodies w)) 0 w [] eq_refl)).
    simpl skipn. simpl app.
    apply (quiet_outer_loop (bodies w)); [apply integrate_all_bodies|reflexivity|exact Hq].
  - apply integrate_all_bodies.
  - intros Hnd h. split.
    + now apply integrate_all_inside.
    + now apply integrate_all_outside.
Qed.

Lemma ascending_pairs_length (l : list Handle) :
  2 * List.length (ascending_pairs l) = List.length l * (List.length l - 1).
Proof.
  induction l as [|a l IH]; [reflexivity|].
  simpl. rewrite length_app, length_map. destruct l as [|b l]; [reflexivity|].
  simpl in *. nia.
Qed.

Lemma ascending_pairs_NoDup (l : list Handle) :
  NoDup l -> NoDup (ascending_pairs l).
Proof.
  induction 1 as [|a l Ha Hl IH]; simpl; [constructor|].
  apply NoDup_app.
  - clear IH Ha. induction Hl as [|b l Hb Hl IHl]; simpl; constructor; [|exact IHl].
    rewrite in_map_iff. intros (b' & E & Hb'). injection E as ->. contradiction.
  - exact IH.
  - intros p Hp Hq. apply in_map_iff in Hp. destruct Hp as (b & <- & Hb).
    destruct (ascending_pairs_in _ _ Hq) as (a' & b' & E & Ha' & _).
    injection E as -> ->. contradiction.
Qed.

Lemma ascending_pairs_cover (l : list Handle) (a b : Handle) :
  In a l -> In b l -> a <> b ->
  In (Some a, Some b) (ascending_pairs l) \/ In (Some b, Some a) (ascending_pairs l).
Proof.
  induction l as [|c l IH]; simpl; [tauto|].
  intros [->|Ha] [->|Hb] Hne; try congruence.
  - left. apply in_or_app. left. apply in_map_iff. eauto.
  - right. apply in_or_app. left. apply in_map_iff. eauto.
  - destruct (IH Ha Hb Hne) as [H|H]; [left|right]; apply in_or_app; right; exact H.
Qed.

Lemma ascending_pairs_one_way (l : list Handle) (a b : Handle) :
  NoDup l -> In (Some a, Some b) (ascending_pairs l) ->
  ~ In (Some b, Some a) (ascending_pairs l).
Proof.
  induction 1 as [|c l Hc Hl IH]; simpl; [tauto|].
  rewrite !in_app_iff, !in_map_iff.
  intros [(y & E & Hy)|Hin] [(z & E' & Hz)|Hin'].
  - injection E as -> ->. injection E' as -> _. contradiction.
  - injection E as -> ->.
    destruct (ascending_pairs_in _ _ Hin') as (u & v & E & _ & Hv).
    injection E as -> ->. contradiction.
  - injection E' as -> ->.
    destruct (ascending_pairs_in _ _ Hin) as (u & v & E & _ & Hv).
    injection E as -> ->. contradiction.
  - now apply IH.
Qed.

(** X9. With distinct handles and listeners that only push bodies, a step
    over [n] bodies calls [_collide] [n*(n-1)/2] times: once on each
    unordered pair of two different bodies of the list, in one orientation
    only, and never on a body paired with itself. *)
Theorem step_examines_each_pair_once (dt : T) (w : World T) :
  appends_only emitter ->
  NoDup (bodies w) ->
  exists w' tr,
    World_step emitter dt (w, []) = Ok tt (w', tr) /\
    2 * List.length (collided tr) = List.length (bodies w) * (List.length (bodies w) - 1) /\
    NoDup (collided tr) /\
    (forall a b, In a (bodies w) -> In b (bodies w) -> a <> b ->
       (In (Some a, Some b) (collided tr) /\ ~ In (Some b, Some a) (collided tr)) \/
       (In (Some b, Some a) (collided tr) /\ ~ In (Some a, Some b) (collided tr))) /\
    (forall a, ~ In (Some a, Some a) (collided tr)).
Proof.
  intros Happ Hnd.
  destruct (step_with_appending_listeners emitter Happ dt w)
    as (w' & tr & E & _ & Hc & _).
  exists w', tr. split; [exact E|]. rewrite Hc.
  split; [apply ascending_pairs_length|].
  split; [now apply ascending_pairs_NoDup|].
  split.
  - intros a b Ha Hb Hne.
    destruct (ascending_pairs_cover _ _ _ Ha Hb Hne) as [H|H]; [left|right];
      (split; [exact H|now apply ascending_pairs_one_way]).
  - intros a Hin. exact (ascending_pairs_distinct _ _ _ Hnd Hin eq_refl).
Qed.

Lemma kinematic_only_refl (w : World T) : kinematic_only w w.
Proof.
  repeat split. intros h.
  exists (position (heap w h)), (velocity (heap w h)), (acceleration (heap w h)).
  now destruct (heap w h).
Qed.

Lemma kinematic_only_trans (w1 w2 w3 : World T) :
  kinematic_only w1 w2 -> kinematic_only w2 w3 -> kinematic_only w1 w3.
Proof.
  intros (Hb & Hf & H12) (Hb' & Hf' & H23).
  split; [congruence|]. split; [congruence|].
  intros h. destruct (H12 h) as (p & v & a & E). destruct (H23 h) as (p' & v' & a' & E').
  exists p', v', a'. rewrite E', E. reflexivity.
Qed.

Lemma kinematic_only_integrate (dt : T) (k : Handle) (w : World T) :
  kinematic_only w (update k (fun body => Body_integrate body dt) w).
Proof.
  repeat split. intros h. destruct (Nat.eq_dec h k) as [->|Hne].
  - rewrite heap_update_eq. unfold Body_integrate. destruct (static (heap w k)).
    + exists (position (heap w k)), (velocity (heap w k)), (acceleration (heap w k)).
      now destruct (heap w k).
    + eexists _, _, _. reflexivity.
  - rewrite heap_update_neq by exact Hne.
    exists (position (heap w h)), (velocity (heap w h)), (acceleration (heap w h)).
    now destruct (heap w h).
Qed.

Lemma kinematic_only_resolve (A B : Handle) (n : Vec2 T) (p : T) (w : World T) :
  kinematic_only w (World__resolveCollision A B n p w).
Proof.
  destruct (resolve_moved A B n p w) as (Hb & Hf & Hm).
  split; [exact Hb|]. split; [exact Hf|].
  intros h. destruct (Hm h) as [_ (q & v & E)].
  exists q, v, (acceleration (heap w h)). rewrite E. reflexivity.
Qed.

(** The world [_collide] ends in is the one it found, or the one the
    listeners made of a resolved one. *)
Lemma collide_final_world (A B : option Handle) (s : St T) :
  fst (final (World__collide emitter A B s)) = fst s \/
  exists a b n p e,
    fst (final (World__collide emitter A B s))
    = emitter e (World__resolveCollision a b n p (fst s)).
Proof.
  destruct s as [w tr]. destruct A as [a|], B as [b|].
  - rewrite collide_two_bodies. destruct (detected (heap w a) (heap w b)); simpl.
    + right. eexists _, _, _, _, _. reflexivity.
    + left. reflexivity.
  - left. cbv [World__collide dispatchEvent bind ret field deref modify note throw fst snd].
    destruct (static (heap w a)); simpl; [reflexivity|].
    destruct (is_circle (shape (heap w a))); reflexivity.
  - left. reflexivity.
  - left. reflexivity.
Qed.

(** X10. A step writes positions, velocities and accelerations only: when
    the listeners do the same (they keep the body list and the other
    fields), then after [step], whether it returns or raises, the body
    list is the same and no body has changed its angle, angular velocity,
    mass, inverse mass, restitution, friction, shape or static flag. *)
Theorem step_writes_kinematics_only (dt : T) (w : World T) (tr : list (Obs T)) :
  (forall e w0, kinematic_only w0 (emitter e w0)) ->
  let w' := fst (final (World_step emitter dt (w, tr))) in
  bodies w' = bodies w /\
  forall h,
    angle (heap w' h) = angle (heap w h) /\
    angularVelocity (heap w' h) = angularVelocity (heap w h) /\
    mass (heap w' h) = mass (heap w h) /\
    invMass (heap w' h) = invMass (heap w h) /\
    restitution (heap w' h) = restitution (heap w h) /\
    friction (heap w' h) = friction (heap w h) /\
    shape (heap w' h) = shape (heap w h) /\
    static (heap w' h) = static (heap w h).
Proof.
  intros Hem w'.
  assert (H : kinematic_only w w').
  { unfold w'. set (P := fun s : St T => kinematic_only w (fst s)).
    assert (Hcollide : forall A B s, P s -> P (final (World__collide emitter A B s))).
    { intros A B s Hp. unfold P in *.
      destruct (collide_final_world A B s) as [->|(a & b & n & p & e & ->)]; [exact Hp|].
      eapply kinematic_only_trans; [exact Hp|].
      eapply kinematic_only_trans; [apply kinematic_only_resolve|apply Hem]. }
    assert (Hintegrate : forall i s, P s ->
               P (final (bind (bodies_at i) (fun b => integrate_at b dt) s))).
    { intros i [w1 tr1] Hp. unfold P in *. simpl in Hp.
      cbv [bind bodies_at integrate_at deref ret note modify throw fst snd].
      destruct (nth_error (bodies w1) i) as [k|]; cbn [final fst snd]; [|exact Hp].
      eapply kinematic_only_trans; [exact Hp|apply kinematic_only_integrate]. }
    unfold World_step.
    rewrite (bind_Ok bodies_length _ (w, tr) (w, tr) (List.length (bodies w)) eq_refl).
    rewrite final_bind.
    pose proof (for_range_invariant P
                  (fun i => bind (bodies_at i) (fun b => integrate_at b dt))
                  Hintegrate (List.length (bodies w)) 0 (w, tr)
                  (kinematic_only_refl w)) as H1.
    destruct (for_range 0 (List.length (bodies w))
                (fun i => bind (bodies_at i) (fun b => integrate_at b dt)) (w, tr))
      as [[] s1|s1]; simpl in H1; [|exact H1].
    apply (for_range_invariant P); [|exact H1].
    intros i s Hp. rewrite final_bind. simpl.
    apply (for_range_invariant P); [|exact Hp].
    intros j s' Hp'. rewrite final_bind. simpl. now apply Hcollide. }
  destruct H as (Hb & _ & Hh). split; [exact Hb|].
  intros h. destruct (Hh h) as (p & v & a & ->). repeat split.
Qed.

End WholeSteps.

(** ** Adding and removing bodies *)

Section Bookkeeping.

Context {T : Type} {N : Num T}.

Lemma remove_first_last (l : list Handle) (h : Handle) :
  ~ In h l -> remove_first h (l ++ [h]) = l.
Proof.
  induction l as [|a l IH]; simpl; intros Hn.
  - now rewrite Nat.eqb_refl.
  - destruct (Nat.eqb_spec a h) as [->|Hne]; [exfalso; auto|].
    rewrite IH by tauto. reflexivity.
Qed.

(** X11. In a world whose handles are distinct, [addBody] hands out a
    handle that was not in the list, appends it (the bodies already
    there keep their places and their state), and the new body is what
    the constructor builds from the descriptor; removing that handle
    again restores the body list, and the handles stay distinct. *)
Theorem addBody_then_removeBody (options : Options T) (w : World T) :
  distinct_bodies w ->
  let w' := fst (PhysicsEngine_addBody options w) in
  let h := snd (PhysicsEngine_addBody options w) in
  ~ In h (bodies w) /\
  PhysicsEngine_getBodies w' = PhysicsEngine_getBodies w ++ [h] /\
  heap w' h = Body_constructor options /\
  (forall k, k <> h -> heap w' k = heap w k) /\
  PhysicsEngine_getBodies (PhysicsEngine_removeBody h w') = PhysicsEngine_getBodies w /\
  distinct_bodies w'.
Proof.
  intros Hd w' h.
  assert (Hfresh : ~ In h (bodies w)).
  { destruct Hd as [_ Hlt]. rewrite Forall_forall in Hlt.
    intros Hin. specialize (Hlt _ Hin). unfold h in Hlt. simpl in Hlt. lia. }
  split; [exact Hfresh|]. split; [reflexivity|]. split.
  { unfold w', h. simpl. now rewrite Nat.eqb_refl. }
  split.
  { intros k Hk. unfold w', h in *. simpl in *.
    destruct (Nat.eqb_spec k (fresh w)); [contradiction|reflexivity]. }
  split.
  { unfold PhysicsEngine_getBodies, PhysicsEngine_removeBody.
    rewrite World_removeBody_bodies. simpl. now apply remove_first_last. }
  now apply distinct_bodies_addBody.
Qed.

(** X12. [removeBody] takes out one entry and nothing else: every other
    handle is in the list afterwards exactly when it was before, the
    entries before and after the first occurrence of the removed handle
    keep their order, and the list is one shorter when the handle was in
    it. *)
Theorem removeBody_removes_one_entry (w : World T) (body : Handle) :
  (forall k, k <> body ->
     (In k (bodies (World_removeBody body w)) <-> In k (bodies w))) /\
  (forall l1 l2, bodies w = l1 ++ body :: l2 -> ~ In body l1 ->
     bodies (World_removeBody body w) = l1 ++ l2) /\
  (In body (bodies w) ->
   S (List.length (bodies (World_removeBody body w))) = List.length (bodies w)).
Proof.
  rewrite World_removeBody_bodies. simpl.
  split; [|split].
  - intros k Hk. induction (bodies w) as [|a l IH]; simpl; [tauto|].
    destruct (Nat.eqb_spec a body) as [->|Hne]; simpl; [|tauto].
    split; [tauto|]. intros [E|H]; [congruence|exact H].
  - intros l1 l2 -> Hn. induction l1 as [|a l1 IH]; simpl.
    + now rewrite Nat.eqb_refl.
    + destruct (Nat.eqb_spec a body) as [->|Hne]; [exfalso; apply Hn; now left|].
      rewrite IH; [reflexivity|]. intros H. apply Hn. now right.
  - induction (bodies w) as [|a l IH]; simpl; [tauto|].
    destruct (Nat.eqb_spec a body) as [->|Hne]; [reflexivity|].
    intros [E|H]; [congruence|]. simpl. now rewrite IH.
Qed.

End Bookkeeping.

(** ** The lifecycle of the engine *)

Section Lifecycle.

Context {T : Type} {N : Num T}.

Variable emitter : CollisionEvent T -> World T -> World T.

Lemma deliver_all_app (l1 l2 : list (LoopEvent T)) (this : PhysicsEngine T)
      (tr : list (Obs T)) :
  deliver_all emitter (l1 ++ l2) this tr
  = deliver_all emitter l2 (fst (deliver_all emitter l1 this tr))
      (snd (deliver_all emitter l1 this tr)).
Proof.
  revert this tr. induction l1 as [|e l1 IH]; intros this tr; [reflexivity|].
  simpl. destruct (deliver emitter e this tr); apply IH.
Qed.

Lemma stopped_stays_stopped (l : list (LoopEvent T)) (this : PhysicsEngine T)
      (tr : list (Obs T)) :
  running this = false ->
  forallb (@keeps_stopped T) l = true ->
  deliver_all emitter l this tr = (this, tr) /\
  all_returned emitter l this tr = true.
Proof.
  intros Hr. induction l as [|e l IH]; simpl; [split; reflexivity|].
  intros Hl. apply andb_true_iff in Hl. destruct Hl as [He Hl].
  destruct e; simpl in He; try discriminate; simpl;
    unfold PhysicsEngine__onPause, PhysicsEngine__onTick; rewrite ?Hr; simpl;
    try (destruct this as [wd r]; simpl in *; subst r); apply IH, Hl.
Qed.

(** X13. The world is stepped only while the engine runs: an engine that
    is not running is left exactly as it is, with nothing integrated or
    collided and every handler returning (no exception, even before
    [init], when [world] is [null]), by any sequence of ticks, pauses and
    game overs; so whatever arrives after a pause or a game over and
    before the next start or resume has no effect and raises nothing, and
    no time is made up afterwards. *)
Theorem stopped_engine_ignores_ticks
        (before quiet : list (LoopEvent T)) (stop : LoopEvent T)
        (this : PhysicsEngine T) (tr : list (Obs T)) :
  stop = GamePause \/ stop = GameOver ->
  forallb (@keeps_stopped T) quiet = true ->
  (running this = false ->
   deliver_all emitter quiet this tr = (this, tr) /\
   all_returned emitter quiet this tr = true) /\
  deliver_all emitter (before ++ stop :: quiet) this tr
  = deliver_all emitter (before ++ [stop]) this tr /\
  all_returned emitter (stop :: quiet)
    (fst (deliver_all emitter before this tr))
    (snd (deliver_all emitter before this tr)) = true.
Proof.
  intros Hstop Hq. split; [|split].
  - intros Hr. now apply stopped_stays_stopped.
  - rewrite !deliver_all_app.
    set (s := deliver_all emitter before this tr). simpl.
    assert (E : deliver emitter stop (fst s) (snd s)
                = Returned (PhysicsEngine__onPause (fst s)) (snd s))
      by (destruct Hstop as [-> | ->]; reflexivity).
    rewrite E. now apply stopped_stays_stopped.
  - set (s := deliver_all emitter before this tr). simpl.
    assert (E : deliver emitter stop (fst s) (snd s)
                = Returned (PhysicsEngine__onPause (fst s)) (snd s))
      by (destruct Hstop as [-> | ->]; reflexivity).
    rewrite E. now apply stopped_stays_stopped.
Qed.



End Lifecycle.

(** ** The orientation of a pair, in exact arithmetic *)

Section ExactOrientation.

Local Open Scope R_scope.

Variable emitter : CollisionEvent R -> World R -> World R.

Lemma resolve_away (A B k : Handle) (n : Vec2 R) (p : R) (w : World R) :
  k <> A -> k <> B -> heap (World__resolveCollision A B n p w) k = heap w k.
Proof.
  intros HA HB. unfold World__resolveCollision.
  destruct (nseq _ _); [reflexivity|]. cbv zeta.
  destruct (nlt _ _); now rewrite !unless_static_away by assumption.
Qed.

Lemma dist_of_sym (a b : Body R) : dist_of b a = dist_of a b.
Proof. rewrite !dist_of_R. f_equal. ring. Qed.

Lemma radii_of_sym (a b : Body R) : radii_of b a = radii_of a b.
Proof. unfold radii_of. change (nadd ?u ?v) with (u + v). ring. Qed.

Lemma detected_sym (a b : Body R) : detected b a = detected a b.
Proof.
  unfold detected, overlap. rewrite (dist_of_sym a b), (radii_of_sym a b).
  rewrite (andb_comm (static b)), (andb_comm (is_circle (shape b))). reflexivity.
Qed.

Lemma normal_of_sym (a b : Body R) :
  dist_of a b <> 0 -> normal_of b a = Vec2_scale (normal_of a b) (-1).
Proof.
  intros Hd. rewrite !normal_of_R, (dist_of_sym a b).
  destruct (Req_dec_T (dist_of a b) 0) as [E|_]; [contradiction|].
  apply Vec2_eq; simpl; field; exact Hd.
Qed.

Lemma invMassSum_of_sym (a b : Body R) : invMassSum_of b a = invMassSum_of a b.
Proof. rewrite !invMassSum_of_R. ring. Qed.

Lemma velAlongNormal_of_sym (a b : Body R) (n : Vec2 R) :
  velAlongNormal_of b a (Vec2_scale n (-1)) = velAlongNormal_of a b n.
Proof. unfold velAlongNormal_of. rewrite !dot_R. simpl. ring. Qed.

(** Resolving [(B, A)] along [-n] is resolving [(A, B)] along [n]. *)
Lemma resolved_swap (a b : Body R) (n : Vec2 R) (p : R) :
  resolved_B b a (Vec2_scale n (-1)) p = resolved_A a b n p /\
  resolved_A b a (Vec2_scale n (-1)) p = resolved_B a b n p.
Proof.
  unfold resolved_A, resolved_B, correction_of, impulse_of.
  rewrite (velAlongNormal_of_sym a b n), (invMassSum_of_sym a b).
  change (nmin (restitution b) (restitution a))
    with (Rmin (restitution b) (restitution a)).
  rewrite (Rmin_comm (restitution b) (restitution a)).
  set (s := invMassSum_of a b). set (van := velAlongNormal_of a b n).
  set (e := Rmin (restitution a) (restitution b)).
  change (nmin (restitution a) (restitution b)) with e.
  clearbody s van e.
  destruct (nseq s lit_0); [split; reflexivity|].
  assert (Pa : Vec2_sub (position a)
                 (Vec2_static_scale
                    (Vec2_static_scale n (lit_0_2 * (p / s))%num) (invMass a))
               = Vec2_add (position a)
                   (Vec2_static_scale
                      (Vec2_static_scale (Vec2_scale n (-1)) (lit_0_2 * (p / s))%num)
                      (invMass a))) by (apply Vec2_eq; simpl; ring).
  assert (Pb : Vec2_add (position b)
                 (Vec2_static_scale
                    (Vec2_static_scale n (lit_0_2 * (p / s))%num) (invMass b))
               = Vec2_sub (position b)
                   (Vec2_static_scale
                      (Vec2_static_scale (Vec2_scale n (-1)) (lit_0_2 * (p / s))%num)
                      (invMass b))) by (apply Vec2_eq; simpl; ring).
  assert (Va : Vec2_sub (velocity a)
                 (Vec2_static_scale
                    (Vec2_static_scale n (- (lit_1 + e) * van / s)%num) (invMass a))
               = Vec2_add (velocity a)
                   (Vec2_static_scale
                      (Vec2_static_scale (Vec2_scale n (-1)) (- (lit_1 + e) * van / s)%num)
                      (invMass a))) by (apply Vec2_eq; simpl; ring).
  assert (Vb : Vec2_add (velocity b)
                 (Vec2_static_scale
                    (Vec2_static_scale n (- (lit_1 + e) * van / s)%num) (invMass b))
               = Vec2_sub (velocity b)
                   (Vec2_static_scale
                      (Vec2_static_scale (Vec2_scale n (-1)) (- (lit_1 + e) * van / s)%num)
                      (invMass b))) by (apply Vec2_eq; simpl; ring).
  rewrite <- Pa, <- Pb, <- Va, <- Vb. split; reflexivity.
Qed.

(** X15. The order of a pair matters to the sign of the normal only:
    over the reals, when [_collide(A, B)] dispatches, so does
    [_collide(B, A)] on the same state, with the same penetration; if the
    centers differ, the normal points from the first body to the second
    (the difference of the centers is the distance times the normal), the
    swapped call reports the opposite normal, and both calls leave every
    body in the same state before the listeners run. If the centers
    coincide both calls report the normal (1, 0). *)
Theorem collide_is_symmetric_up_to_the_normal
        (w : World R) (tr : list (Obs R)) (A B : Handle) :
  A <> B ->
  detected (heap w A) (heap w B) = true ->
  exists e e' w1 w2,
    World__collide emitter (Some A) (Some B) (w, tr)
    = Ok tt (w1, tr ++ [Collided (Some A) (Some B); Dispatched e]) /\
    World__collide emitter (Some B) (Some A) (w, tr)
    = Ok tt (w2, tr ++ [Collided (Some B) (Some A); Dispatched e']) /\
    (bodyA e = A /\ bodyB e = B /\ bodyA e' = B /\ bodyB e' = A) /\
    penetration e' = penetration e /\
    (dist_of (heap w A) (heap w B) <> 0 ->
     Vec2_static_sub (position (heap w B)) (position (heap w A))
     = Vec2_scale (normal e) (dist_of (heap w A) (heap w B)) /\
     normal e' = Vec2_scale (normal e) (-1) /\
     forall h,
       heap (World__resolveCollision B A (normal e') (penetration e') w) h
       = heap (World__resolveCollision A B (normal e) (penetration e) w) h) /\
    (dist_of (heap w A) (heap w B) = 0 ->
     normal e = mkVec2 1 0 /\ normal e' = mkVec2 1 0).
Proof.
  intros Hne Hdet.
  assert (Hdet' : detected (heap w B) (heap w A) = true) by now rewrite detected_sym.
  rewrite !collide_two_bodies, Hdet, Hdet'.
  eexists _, _, _, _. split; [reflexivity|]. split; [reflexivity|].
  cbn [bodyA bodyB normal penetration event_of].
  set (a := heap w A) in *. set (b := heap w B) in *.
  split; [repeat split|].
  split.
  { unfold penetration_of. now rewrite dist_of_sym, radii_of_sym. }
  split.
  - intros Hd. split; [|split].
    + rewrite normal_of_R. destruct (Req_dec_T (dist_of a b) 0); [contradiction|].
      apply Vec2_eq; simpl; field; exact Hd.
    + now apply normal_of_sym.
    + intros h. rewrite (normal_of_sym a b Hd).
      replace (penetration_of b a) with (penetration_of a b)
        by (unfold penetration_of; now rewrite dist_of_sym, radii_of_sym).
      assert (Hne' : B <> A) by congruence.
      destruct (resolve_two_bodies A B (normal_of a b) (penetration_of a b) w Hne)
        as [HA HB].
      destruct (resolve_two_bodies B A (Vec2_scale (normal_of a b) (-1))
                  (penetration_of a b) w Hne') as [HB' HA'].
      destruct (resolved_swap a b (normal_of a b) (penetration_of a b)) as [SA SB].
      destruct (Nat.eq_dec h A) as [->|HhA]; [rewrite HA, HA'; exact SA|].
      destruct (Nat.eq_dec h B) as [->|HhB]; [rewrite HB, HB'; exact SB|].
      now rewrite !resolve_away by assumption.
  - intros Hd. rewrite !normal_of_R, (dist_of_sym a b).
    destruct (Req_dec_T (dist_of a b) 0); [split; reflexivity|contradiction].
Qed.

End ExactOrientation.

(** ** The fields the stepping path does not read *)

Section UnreadFields.

Context {T : Type} {N : Num T}.

Variable emitter : CollisionEvent T -> World T -> World T.

Lemma dynamics_fields (b b' : Body T) :
  dynamics b' = dynamics b ->
  position b' = position b /\ velocity b' = velocity b /\
  acceleration b' = acceleration b /\ invMass b' = invMass b /\
  restitution b' = restitution b /\ shape b' = shape b /\ static b' = static b.
Proof. unfold dynamics. intros E. injection E. intros. repeat split; assumption. Qed.

Lemma same_dynamics_refl (w : World T) : same_dynamics w w.
Proof. split; reflexivity. Qed.

Lemma same_dynamics_update (h : Handle) (f : Body T -> Body T) (w w' : World T) :
  dynamic f -> same_dynamics w w' -> same_dynamics (update h f w) (update h f w').
Proof.
  intros Hf [Hb Hh]. split; [exact Hb|].
  intros k. unfold update. simpl. destruct (Nat.eqb k h); [apply Hf|]; apply Hh.
Qed.

Lemma same_dynamics_unless_static (X : Handle) (f : Body T -> Body T) (w w' : World T) :
  dynamic f -> same_dynamics w w' ->
  same_dynamics (unless_static X f w) (unless_static X f w').
Proof.
  intros Hf Hw. unfold unless_static.
  destruct (dynamics_fields _ _ (proj2 Hw X)) as (_ & _ & _ & _ & _ & _ & ->).
  destruct (static (heap w X)); [exact Hw|now apply same_dynamics_update].
Qed.

Lemma dynamic_integrate (dt : T) : dynamic (fun body => Body_integrate body dt).
Proof.
  intros b b' E.
  destruct (dynamics_fields _ _ E) as (Hp & Hv & Ha & Hi & Hr & Hs & Hst).
  unfold Body_integrate. rewrite Hst. destruct (static b) eqn:Hb; [exact E|].
  unfold dynamics. simpl. now rewrite Hp, Hv, Ha, Hi, Hr, Hs, Hst, Hb.
Qed.

Lemma dynamic_position (g : T -> Vec2 T -> Vec2 T) :
  dynamic (fun a => set_position a (g (invMass a) (position a))).
Proof.
  intros b b' E.
  destruct (dynamics_fields _ _ E) as (Hp & Hv & Ha & Hi & Hr & Hs & Hst).
  unfold dynamics. simpl. now rewrite Hp, Hv, Ha, Hi, Hr, Hs, Hst.
Qed.

Lemma dynamic_velocity (g : T -> Vec2 T -> Vec2 T) :
  dynamic (fun a => set_velocity a (g (invMass a) (velocity a))).
Proof.
  intros b b' E.
  destruct (dynamics_fields _ _ E) as (Hp & Hv & Ha & Hi & Hr & Hs & Hst).
  unfold dynamics. simpl. now rewrite Hp, Hv, Ha, Hi, Hr, Hs, Hst.
Qed.

Lemma same_dynamics_resolve (A B : Handle) (n : Vec2 T) (p : T) (w w' : World T) :
  same_dynamics w w' ->
  same_dynamics (World__resolveCollision A B n p w) (World__resolveCollision A B n p w').
Proof.
  intros Hw. unfold World__resolveCollision.
  destruct (dynamics_fields _ _ (proj2 Hw A)) as (_ & _ & _ & -> & _ & _ & ->).
  destruct (dynamics_fields _ _ (proj2 Hw B)) as (_ & _ & _ & -> & _ & _ & ->).
  destruct (nseq _ _); [exact Hw|]. cbv zeta.
  match goal with
  | |- context [unless_static A ?f w] =>
      pose proof (same_dynamics_unless_static A f w w'
                    (dynamic_position (fun i q => Vec2_sub q (Vec2_static_scale _ i))) Hw)
        as H1
  end.
  match type of H1 with
  | same_dynamics ?u ?u' =>
      set (w1 := u) in *; set (w1' := u') in *
  end.
  match goal with
  | |- context [unless_static B ?f w1] =>
      pose proof (same_dynamics_unless_static B f w1 w1'
                    (dynamic_position (fun i q => Vec2_add q (Vec2_static_scale _ i))) H1)
        as H2
  end.
  match type of H2 with
  | same_dynamics ?u ?u' =>
      set (w2 := u) in *; set (w2' := u') in *
  end.
  destruct (dynamics_fields _ _ (proj2 H2 A)) as (_ & -> & _ & _ & -> & _ & _).
  destruct (dynamics_fields _ _ (proj2 H2 B)) as (_ & -> & _ & _ & -> & _ & _).
  destruct (nlt _ _); [exact H2|].
  match goal with
  | |- context [unless_static A ?f w2] =>
      pose proof (same_dynamics_unless_static A f w2 w2'
                    (dynamic_velocity (fun i q => Vec2_sub q (Vec2_static_scale _ i))) H2)
        as H3
  end.
  match type of H3 with
  | same_dynamics ?u ?u' =>
      set (w3 := u) in *; set (w3' := u') in *
  end.
  match goal with
  | |- context [unless_static B ?f w3] =>
      exact (same_dynamics_unless_static B f w3 w3'
               (dynamic_velocity (fun i q => Vec2_add q (Vec2_static_scale _ i))) H3)
  end.
Qed.

Lemma detected_dynamics (a a' b b' : Body T) :
  dynamics a' = dynamics a -> dynamics b' = dynamics b ->
  detected a' b' = detected a b /\
  normal_of a' b' = normal_of a b /\
  penetration_of a' b' = penetration_of a b.
Proof.
  intros Ea Eb.
  destruct (dynamics_fields _ _ Ea) as (Hp & _ & _ & _ & _ & Hs & Hst).
  destruct (dynamics_fields _ _ Eb) as (Hp' & _ & _ & _ & _ & Hs' & Hst').
  unfold detected, overlap, normal_of, penetration_of, radii_of, dist_of.
  now rewrite Hp, Hs, Hst, Hp', Hs', Hst'.
Qed.

Lemma same_run_bind {A B : Type} (m : M T A) (k : A -> M T B) (s s' : St T) :
  same_run (m s) (m s') ->
  (forall a t t', same_dynamics (fst t) (fst t') -> snd t' = snd t ->
                  same_run (k a t) (k a t')) ->
  same_run (bind m k s) (bind m k s').
Proof.
  intros Hm Hk. unfold bind.
  destruct (m s) as [a t|t], (m s') as [a' t'|t']; simpl in Hm; try contradiction.
  - destruct Hm as (-> & Hw & Htr). now apply Hk.
  - exact Hm.
Qed.

Lemma same_run_for_range (body : nat -> M T unit) :
  (forall i t t', same_dynamics (fst t) (fst t') -> snd t' = snd t ->
                  same_run (body i t) (body i t')) ->
  forall n i s s', same_dynamics (fst s) (fst s') -> snd s' = snd s ->
                   same_run (for_range i n body s) (for_range i n body s').
Proof.
  intros Hbody. induction n as [|n IH]; intros i s s' Hw Htr.
  - simpl. unfold ret. simpl. auto.
  - rewrite for_range_S. apply same_run_bind; [now apply Hbody|].
    intros _ t t' Hw' Htr'. now apply IH.
Qed.

Lemma same_run_bodies_at (i : nat) (s s' : St T) :
  same_dynamics (fst s) (fst s') -> snd s' = snd s ->
  same_run (bodies_at i s) (bodies_at i s').
Proof.
  intros Hw Htr. unfold bodies_at. simpl. rewrite (proj1 Hw). auto.
Qed.

Lemma same_run_integrate_at (b : option Handle) (dt : T) (s s' : St T) :
  same_dynamics (fst s) (fst s') -> snd s' = snd s ->
  same_run (integrate_at b dt s) (integrate_at b dt s').
Proof.
  intros Hw Htr. destruct b as [h|].
  - destruct s as [w tr], s' as [w' tr']. simpl in Hw, Htr. subst tr'.
    cbv [integrate_at bind deref ret note modify fst snd same_run].
    split; [reflexivity|]. split; [|reflexivity].
    apply same_dynamics_update; [apply dynamic_integrate|exact Hw].
  - cbv [integrate_at bind deref throw same_run fst snd]. auto.
Qed.

Lemma same_run_collide (A B : option Handle) (s s' : St T) :
  (forall e w0 w0', same_dynamics w0 w0' -> same_dynamics (emitter e w0) (emitter e w0')) ->
  same_dynamics (fst s) (fst s') -> snd s' = snd s ->
  same_run (World__collide emitter A B s) (World__collide emitter A B s').
Proof.
  intros Hem Hw Htr. destruct s as [w tr], s' as [w' tr']. simpl in Hw, Htr. subst tr'.
  destruct A as [a|], B as [b|].
  - rewrite !collide_two_bodies. unfold event_of.
    destruct (detected_dynamics _ _ _ _ (proj2 Hw a) (proj2 Hw b)) as (-> & -> & ->).
    destruct (detected (heap w a) (heap w b)); simpl.
    + split; [reflexivity|]. split; [|reflexivity].
      apply Hem. now apply same_dynamics_resolve.
    + auto.
  - cbv [World__collide dispatchEvent bind ret field deref modify note throw fst snd].
    destruct (dynamics_fields _ _ (proj2 Hw a)) as (_ & _ & _ & _ & _ & Hs & ->).
    destruct (static (heap w a)); simpl; [auto|].
    rewrite Hs. destruct (is_circle (shape (heap w a))); simpl; auto.
  - simpl. auto.
  - simpl. auto.
Qed.

(** X16. The stepping path never reads [angle], [angularVelocity], [mass]
    or [friction]: started in two states that differ in these fields only,
    with listeners that do not look at them either, [step] makes the same
    calls and dispatches the same events (with the same normals and
    penetrations), raises in the one exactly when it raises in the other,
    and leaves the bodies with the same positions, velocities and
    accelerations. *)
Theorem step_ignores_the_unread_fields (dt : T) (w w' : World T) (tr : list (Obs T)) :
  (forall e w0 w0', same_dynamics w0 w0' -> same_dynamics (emitter e w0) (emitter e w0')) ->
  same_dynamics w w' ->
  let r := World_step emitter dt (w, tr) in
  let r' := World_step emitter dt (w', tr) in
  raised r' = raised r /\
  snd (final r') = snd (final r) /\
  bodies (fst (final r')) = bodies (fst (final r)) /\
  forall h,
    position (heap (fst (final r')) h) = position (heap (fst (final r)) h) /\
    velocity (heap (fst (final r')) h) = velocity (heap (fst (final r)) h) /\
    acceleration (heap (fst (final r')) h) = acceleration (heap (fst (final r)) h).
Proof.
  intros Hem Hw r r'.
  assert (H : same_run r r').
  { unfold r, r', World_step.
    apply same_run_bind.
    - unfold bodies_length. simpl. rewrite (proj1 Hw). auto using same_dynamics_refl.
    - intros len t t' Ht Htr. apply same_run_bind.
      + apply same_run_for_range; [|exact Ht|exact Htr].
        intros i u u' Hu Hutr. apply same_run_bind; [now apply same_run_bodies_at|].
        intros b v v' Hv Hvtr. now apply same_run_integrate_at.
      + intros _ u u' Hu Hutr. apply same_run_for_range; [|exact Hu|exact Hutr].
        intros i v v' Hv Hvtr. apply same_run_bind; [now apply same_run_bodies_at|].
        intros A x x' Hx Hxtr. apply same_run_for_range; [|exact Hx|exact Hxtr].
        intros j y y' Hy Hytr. apply same_run_bind; [now apply same_run_bodies_at|].
        intros B z z' Hz Hztr. now apply same_run_collide. }
  assert (H' : raised r' = raised r /\ same_dynamics (fst (final r)) (fst (final r'))
               /\ snd (final r') = snd (final r)).
  { destruct r as [[] s|s], r' as [[] s'|s']; simpl in H |- *; try contradiction.
    - destruct H as (_ & H1 & H2). auto.
    - destruct H as (H1 & H2). auto. }
  destruct H' as (Hr & [Hb Hh] & Htr).
  split; [exact Hr|]. split; [exact Htr|]. split; [exact Hb|].
  intros h. destruct (dynamics_fields _ _ (Hh h)) as (Hp & Hv & Ha & _). auto.
Qed.

End UnreadFields.

(** ** Emptying the world *)

Section Clearing.

Context {T : Type} {N : Num T}.

Variable emitter : CollisionEvent T -> World T -> World T.

Lemma step_on_no_bodies (dt : T) (w : World T) (tr : list (Obs T)) :
  bodies w = [] -> World_step emitter dt (w, tr) = Ok tt (w, tr).
Proof.
  intros Hb. unfold World_step.
  rewrite (bind_Ok bodies_length _ (w, tr) (w, tr) 0) by (unfold bodies_length; simpl; now rewrite Hb).
  reflexivity.
Qed.

Lemma empty_world_stays_empty (l : list (LoopEvent T)) (w : World T) (r : bool)
      (tr : list (Obs T)) :
  bodies w = [] ->
  world (fst (deliver_all emitter l (mkPhysicsEngine (Some w) r) tr)) = Some w /\
  snd (deliver_all emitter l (mkPhysicsEngine (Some w) r) tr) = tr.
Proof.
  intros Hb. revert r. induction l as [|e l IH]; intros r; [split; reflexivity|].
  destruct e; simpl; try apply IH.
  unfold PhysicsEngine__onTick. simpl. destruct r; simpl; [|apply IH].
  rewrite step_on_no_bodies by exact Hb. simpl. apply IH.
Qed.

(** X17. [clear] takes every body out of the simulation at once: on an
    engine with a world, [getBodies] is empty afterwards, and whatever
    events of the game loop follow, no body is integrated or collided and
    nothing is dispatched, while the body objects themselves stay as they
    are; a body added afterwards is a new object, different from every
    body the list held before, and is then the only one listed. *)
Theorem clear_takes_every_body_out
        (this : PhysicsEngine T) (w : World T) (tr : list (Obs T)) :
  world this = Some w ->
  distinct_bodies w ->
  let cleared := engine_clear this in
  engine_getBodies cleared = [] /\
  (forall events,
     world (fst (deliver_all emitter events cleared tr)) = world cleared /\
     snd (deliver_all emitter events cleared tr) = tr) /\
  (forall w0, world cleared = Some w0 -> forall h, heap w0 h = heap w h) /\
  (forall options this1 h,
     engine_addBody options cleared = Some (this1, h) ->
     ~ In h (bodies w) /\ engine_getBodies this1 = [h]) /\
  (forall body this1, engine_removeBody body cleared = Some this1 -> this1 = cleared).
Proof.
  intros Hw Hd cleared.
  assert (Ec : cleared = mkPhysicsEngine (Some (PhysicsEngine_clear w)) (running this)).
  { unfold cleared, engine_clear. now rewrite Hw. }
  rewrite Ec. split; [reflexivity|]. split; [|split; [|split]].
  - intros events. now apply empty_world_stays_empty.
  - simpl. intros w0 E h. injection E as <-. reflexivity.
  - unfold engine_addBody, engine_getBodies. simpl. intros options this1 h E.
    injection E as <- <-. split; [|reflexivity].
    destruct Hd as [_ Hlt]. rewrite Forall_forall in Hlt.
    intros Hin. specialize (Hlt _ Hin). lia.
  - unfold engine_removeBody. simpl. intros body this1 E. injection E as <-. reflexivity.
Qed.

End Clearing.

(** ** The further properties on concrete scenes *)

Lemma two_circles_are_detected :
  detected (heap two_circles 0%nat) (heap two_circles 1%nat) = true.
Proof.
  assert (Hd : dist_of (heap two_circles 0%nat) (heap two_circles 1%nat) = 0%R).
  { rewrite dist_of_R. unfold two_circles, scene. simpl.
    replace ((0 - 0) * (0 - 0) + (0 - 0) * (0 - 0))%R with 0%R by ring.
    apply sqrt_0. }
  unfold detected.
  replace (overlap (heap two_circles 0%nat) (heap two_circles 1%nat)) with true
    by (symmetry; apply overlap_R; right; exact Hd).
  reflexivity.
Qed.

Lemma two_circles_inverse_masses :
  (invMassSum_of (heap two_circles 0%nat) (heap two_circles 1%nat) <> 0)%R /\
  (0 < mass (heap two_circles 0%nat))%R /\ (0 < mass (heap two_circles 1%nat))%R /\
  (mass (heap two_circles 0%nat) * invMass (heap two_circles 0%nat) = 1)%R /\
  (mass (heap two_circles 1%nat) * invMass (heap two_circles 1%nat) = 1)%R.
Proof.
  destruct (constructor_invMass (circle_at 0 0 3 4 false)%R) as [H0 H0'].
  destruct (constructor_invMass (circle_at 0 0 0 0 false)%R) as [H1 H1'].
  split; [|repeat split; assumption].
  rewrite invMassSum_of_R. unfold two_circles, scene. simpl. lra.
Qed.

(** Witness of X1: the vector [(3, 4)]. *)
Lemma normalize_3_4 :
  Vec2_length (@mkVec2 R 3%R 4%R) <> 0%R /\
  Vec2_length (Vec2_normalize (@mkVec2 R 3%R 4%R)) = 1%R.
Proof.
  assert (H : Vec2_length (@mkVec2 R 3%R 4%R) <> 0%R).
  { apply Rgt_not_eq. unfold Vec2_length. simpl. apply sqrt_lt_R0. lra. }
  split; [exact H|].
  exact (proj1 (proj1 (normalize_gives_the_unit_vector (mkVec2 3%R 4%R)) H)).
Defined.

(** Witness of X2: two circles at the same place. *)
Lemma unit_normal_on_two_circles :
  detected (heap two_circles 0%nat) (heap two_circles 1%nat) = true /\
  exists e w',
    World__collide (fun _ w => w) (Some 0) (Some 1) (two_circles, [])
    = Ok tt (w', [] ++ [Collided (Some 0) (Some 1); Dispatched e]) /\
    Vec2_length (normal e) = 1%R.
Proof.
  split; [exact two_circles_are_detected|].
  destruct (dispatched_normal_is_unit (fun _ w => w) two_circles [] 0 1
              two_circles_are_detected) as (e & w' & E & Hn & _).
  exists e, w'. split; [exact E|exact Hn].
Defined.

(** Witness of X3: two circles, the first moving at [(3, 4)], on the
    normal [(0, 1)]. *)
Lemma restitution_on_two_circles :
  (0 <> 1 /\
   (invMassSum_of (heap two_circles 0%nat) (heap two_circles 1%nat) <> 0)%R /\
   Vec2_dot (@mkVec2 R 0%R 1%R) (mkVec2 0%R 1%R) = 1%R) /\
  (0 <= Rmin (restitution (heap two_circles 0%nat)) (restitution (heap two_circles 1%nat)) ->
   0 <= approach (World__resolveCollision 0%nat 1%nat (mkVec2 0 1) 2 two_circles) 0%nat 1%nat (mkVec2 0 1))%R.
Proof.
  assert (Hn : Vec2_dot (@mkVec2 R 0%R 1%R) (mkVec2 0%R 1%R) = 1%R) by (rewrite dot_R; simpl; ring).
  destruct two_circles_inverse_masses as (Hs & _).
  split; [split; [discriminate|split; [exact Hs|exact Hn]]|].
  pose proof (restitution_reverses_the_approach two_circles 0 1 (mkVec2 0 1)%R 2%R
                (fun E : 0 = 1 => O_S 0 E) Hs Hn) as H.
  cbv zeta in H. destruct H as (_ & _ & H). exact H.
Defined.

(** Witness of X4: the same two circles. *)
Lemma energy_on_two_circles :
  (0 <> 1 /\ static (heap two_circles 0%nat) = false /\ static (heap two_circles 1%nat) = false /\
   Vec2_dot (@mkVec2 R 0%R 1%R) (mkVec2 0%R 1%R) = 1%R) /\
  (0 <= Rmin (restitution (heap two_circles 0%nat)) (restitution (heap two_circles 1%nat)) <= 1 ->
   kinetic_energy2 (World__resolveCollision 0%nat 1%nat (mkVec2 0 1) 2 two_circles) 0%nat 1%nat
   <= kinetic_energy2 two_circles 0%nat 1%nat)%R.
Proof.
  assert (Hn : Vec2_dot (@mkVec2 R 0%R 1%R) (mkVec2 0%R 1%R) = 1%R) by (rewrite dot_R; simpl; ring).
  destruct two_circles_inverse_masses as (_ & Hm0 & Hm1 & Hi0 & Hi1).
  split; [repeat split; try discriminate; exact Hn|].
  pose proof (resolution_dissipates_energy two_circles 0 1 (mkVec2 0 1)%R 2%R
                (fun E : 0 = 1 => O_S 0 E) eq_refl eq_refl Hm0 Hm1 Hi0 Hi1 Hn) as H.
  cbv zeta in H. destruct H as (_ & _ & H). exact H.
Defined.

(** Witness of X5: the same two circles. *)
Lemma center_of_mass_on_two_circles :
  (0 <> 1 /\ static (heap two_circles 0%nat) = false /\ static (heap two_circles 1%nat) = false) /\
  mass_center (World__resolveCollision 0%nat 1%nat (mkVec2 1 0)%R 2%R two_circles) 0%nat 1%nat
  = mass_center two_circles 0 1.
Proof.
  destruct two_circles_inverse_masses as (_ & _ & _ & Hi0 & Hi1).
  split; [repeat split; discriminate|].
  exact (correction_keeps_the_center_of_mass two_circles 0 1 (mkVec2 1 0)%R 2%R
           (fun E : 0 = 1 => O_S 0 E) eq_refl eq_refl Hi0 Hi1).
Defined.

(** Witness of X6: a force on the first of the two circles. *)
Lemma force_on_a_circle :
  (static (heap two_circles 0%nat) = false /\
   acceleration (heap two_circles 0%nat) = @mkVec2 R 0%R 0%R) /\
  (mass (heap two_circles 0%nat)
   * (x (velocity (Body_integrate (Body_applyForce (heap two_circles 0%nat) (mkVec2 5 7)) (1 / 2)))
      - x (velocity (heap two_circles 0%nat)))
   = 5 * (1 / 2))%R.
Proof.
  destruct two_circles_inverse_masses as (_ & _ & _ & Hi0 & _).
  split; [split; reflexivity|].
  destruct (force_changes_momentum (heap two_circles 0%nat) (mkVec2 5 7)%R (mkVec2 0 0)%R
              (1 / 2)%R eq_refl Hi0) as [_ H].
  exact (proj1 (H eq_refl)).
Defined.

(** Witness of X8: two circles ten apart; after a step of one second they
    are nine apart. *)
Lemma step_on_far_circles :
  (forall a b, In (Some a, Some b) (ascending_pairs (bodies far_circles)) ->
     detected (heap (integrate_all 1%float (bodies far_circles) far_circles) a)
              (heap (integrate_all 1%float (bodies far_circles) far_circles) b) = false) /\
  World_step (fun _ w => w) 1%float (far_circles, [])
  = Ok tt (integrate_all 1%float (bodies far_circles) far_circles,
           [Integrated 0; Integrated 1; Collided (Some 0) (Some 1)]) /\
  position (heap (integrate_all 1%float (bodies far_circles) far_circles) 0)
  = mkVec2 1%float 0%float.
Proof.
  assert (Hq : forall a b, In (Some a, Some b) (ascending_pairs (bodies far_circles)) ->
     detected (heap (integrate_all 1%float (bodies far_circles) far_circles) a)
              (heap (integrate_all 1%float (bodies far_circles) far_circles) b) = false).
  { intros a b [E|[]]. injection E as <- <-. vm_compute. reflexivity. }
  split; [exact Hq|].
  split; [|vm_compute; reflexivity].
  exact (proj1 (step_without_overlap_only_integrates (fun _ w => w) 1%float far_circles Hq)).
Defined.

Lemma three_circles_are_distinct : distinct_bodies three_circles.
Proof.
  change (distinct_bodies
            (fst (PhysicsEngine_addBody (circle_at 0 0 0 0 false)%float
               (fst (PhysicsEngine_addBody (circle_at 0 0 0 0 false)%float
                  (fst (PhysicsEngine_addBody (circle_at 0 0 0 0 false)%float
                     World_constructor))))))).
  repeat apply distinct_bodies_addBody. apply distinct_bodies_constructor.
Qed.

(** Witness of X9: three circles, with a listener that adds a body at
    each collision; three pairs are examined. *)
Lemma pairs_on_three_circles :
  (appends_only (adding_listener (circle_at 0 0 0 0 false)%float) /\
   NoDup (bodies three_circles)) /\
  exists w' tr,
    World_step (adding_listener (circle_at 0 0 0 0 false)%float) 1%float (three_circles, [])
    = Ok tt (w', tr) /\
    2 * List.length (collided tr) = 3 * 2 /\
    NoDup (collided tr).
Proof.
  assert (Happ : appends_only (adding_listener (circle_at 0 0 0 0 false)%float)).
  { intros e w. exists [fresh w]. reflexivity. }
  pose proof (proj1 three_circles_are_distinct) as Hnd.
  split; [split; assumption|].
  destruct (step_examines_each_pair_once
              (adding_listener (circle_at 0 0 0 0 false)%float) 1%float three_circles
              Happ Hnd) as (w' & tr & E & Hlen & Hnd' & _).
  exists w', tr. split; [exact E|]. split; [exact Hlen|exact Hnd'].
Defined.

(** Witness of X10: three circles and no listener; the masses are what
    they were. *)
Lemma makeup_of_three_circles :
  (forall (e : CollisionEvent float) w0, kinematic_only w0 ((fun (_ : CollisionEvent float) (w : World float) => w) e w0)) /\
  mass (heap (fst (final (World_step (fun _ w => w) 1%float (three_circles, [])))) 0)
  = mass (heap three_circles 0).
Proof.
  assert (Hem : forall (e : CollisionEvent float) w0,
             kinematic_only w0 ((fun (_ : CollisionEvent float) (w : World float) => w) e w0))
    by (intros e w0; apply kinematic_only_refl).
  split; [exact Hem|].
  pose proof (step_writes_kinematics_only (fun _ w => w) 1%float three_circles [] Hem) as H.
  cbv zeta in H. destruct H as [_ H]. destruct (H 0) as (_ & _ & Hm & _). exact Hm.
Defined.

(** Witness of X11: a fourth circle added to three. *)
Lemma add_and_remove_on_three_circles :
  distinct_bodies three_circles /\
  PhysicsEngine_getBodies
    (PhysicsEngine_removeBody
       (snd (PhysicsEngine_addBody (circle_at 0 0 0 0 false)%float three_circles))
       (fst (PhysicsEngine_addBody (circle_at 0 0 0 0 false)%float three_circles)))
  = [0; 1; 2].
Proof.
  split; [exact three_circles_are_distinct|].
  pose proof (addBody_then_removeBody (circle_at 0 0 0 0 false)%float three_circles
                three_circles_are_distinct) as H.
  cbv zeta in H. destruct H as (_ & _ & _ & _ & H & _). exact H.
Defined.

(** Witness of X12: the middle of three circles is removed. *)
Lemma remove_the_middle_circle :
  (bodies three_circles = [0] ++ 1 :: [2] /\ ~ In 1 [0]) /\
  bodies (World_removeBody 1 three_circles) = [0] ++ [2].
Proof.
  assert (Hn : ~ In 1 [0]) by (intros [E|[]]; discriminate E).
  split; [split; [reflexivity|exact Hn]|].
  exact (proj1 (proj2 (removeBody_removes_one_entry three_circles 1)) [0] [2] eq_refl Hn).
Defined.

(** Witness of X13: a start, a pause, then two ticks. *)
Lemma ticks_after_a_pause :
  ((@GamePause float = GamePause \/ @GamePause float = GameOver) /\
   forallb (@keeps_stopped float) [tick None; tick (Some None)] = true) /\
  deliver_all (fun _ w => w) ([GameStart] ++ GamePause :: [tick None; tick (Some None)])
    (mkPhysicsEngine (Some three_circles) false) []
  = deliver_all (fun _ w => w) ([GameStart] ++ [GamePause])
      (mkPhysicsEngine (Some three_circles) false) [] /\
  all_returned (fun _ w => w) (GamePause :: [tick None; tick (Some None)])
    (fst (deliver_all (fun _ w => w) [GameStart]
            (mkPhysicsEngine (Some three_circles) false) []))
    (snd (deliver_all (fun _ w => w) [GameStart]
            (mkPhysicsEngine (Some three_circles) false) []))
  = true.
Proof.
  split; [split; [left; reflexivity|reflexivity]|].
  exact (proj2 (stopped_engine_ignores_ticks (fun _ w => w) [GameStart]
                  [tick None; tick (Some None)] GamePause
                  (mkPhysicsEngine (Some three_circles) false) []
                  (or_introl eq_refl) eq_refl)).
Defined.


Lemma near_circles_are_one_apart :
  dist_of (heap near_circles 0%nat) (heap near_circles 1%nat) = 1%R.
Proof.
  rewrite dist_of_R. unfold near_circles, scene. simpl.
  replace ((1 - 0) * (1 - 0) + (0 - 0) * (0 - 0))%R with 1%R by ring.
  apply sqrt_1.
Qed.

Lemma near_circles_are_detected :
  detected (heap near_circles 0%nat) (heap near_circles 1%nat) = true.
Proof.
  unfold detected.
  replace (overlap (heap near_circles 0%nat) (heap near_circles 1%nat)) with true.
  - reflexivity.
  - symmetry. apply overlap_R. left. rewrite near_circles_are_one_apart.
    unfold radii_of, near_circles, scene. simpl. lra.
Qed.

(** Witness of X15: two overlapping circles one apart. *)
Lemma swapped_pair_on_near_circles :
  (0 <> 1 /\ detected (heap near_circles 0%nat) (heap near_circles 1%nat) = true) /\
  exists e e' w1 w2,
    World__collide (fun _ w => w) (Some 0) (Some 1) (near_circles, [])
    = Ok tt (w1, [] ++ [Collided (Some 0) (Some 1); Dispatched e]) /\
    World__collide (fun _ w => w) (Some 1) (Some 0) (near_circles, [])
    = Ok tt (w2, [] ++ [Collided (Some 1) (Some 0); Dispatched e']) /\
    penetration e' = penetration e /\
    normal e' = Vec2_scale (normal e) (-1)%R.
Proof.
  split; [split; [discriminate|exact near_circles_are_detected]|].
  destruct (collide_is_symmetric_up_to_the_normal (fun _ w => w) near_circles [] 0 1
              (fun E : 0 = 1 => O_S 0 E) near_circles_are_detected)
    as (e & e' & w1 & w2 & E & E' & _ & Hp & Hn & _).
  exists e, e', w1, w2. split; [exact E|]. split; [exact E'|]. split; [exact Hp|].
  assert (Hd : dist_of (heap near_circles 0%nat) (heap near_circles 1%nat) <> 0%R)
    by (rewrite near_circles_are_one_apart; lra).
  exact (proj1 (proj2 (Hn Hd))).
Defined.

(** Witness of X16: three circles, and the same with another friction on
    the first. *)
Lemma friction_on_three_circles :
  ((forall (e : CollisionEvent float) (w0 w0' : World float),
      same_dynamics w0 w0' ->
      same_dynamics ((fun (_ : CollisionEvent float) (w : World float) => w) e w0)
                    ((fun (_ : CollisionEvent float) (w : World float) => w) e w0')) /\
   same_dynamics three_circles (update 0 (with_friction 1%float) three_circles)) /\
  snd (final (World_step (fun _ w => w) 1%float
                (update 0 (with_friction 1%float) three_circles, [])))
  = snd (final (World_step (fun _ w => w) 1%float (three_circles, []))).
Proof.
  assert (Hem : forall (e : CollisionEvent float) (w0 w0' : World float),
             same_dynamics w0 w0' ->
             same_dynamics ((fun (_ : CollisionEvent float) (w : World float) => w) e w0)
                           ((fun (_ : CollisionEvent float) (w : World float) => w) e w0'))
    by (intros e w0 w0' H; exact H).
  assert (Hw : same_dynamics three_circles (update 0 (with_friction 1%float) three_circles)).
  { split; [reflexivity|]. intros h. unfold update. cbn [heap].
    destruct (Nat.eqb h 0) eqn:E; [|reflexivity].
    apply Nat.eqb_eq in E. subst h. reflexivity. }
  split; [split; assumption|].
  pose proof (step_ignores_the_unread_fields (fun _ w => w) 1%float three_circles
                (update 0 (with_friction 1%float) three_circles) [] Hem Hw) as H.
  cbv zeta in H. destruct H as (_ & H & _). exact H.
Defined.

(** Witness of X17: a running engine with three circles is cleared, then
    ticked twice. *)
Lemma clear_on_three_circles :
  (world (mkPhysicsEngine (Some three_circles) true) = Some three_circles /\
   distinct_bodies three_circles) /\
  engine_getBodies (engine_clear (mkPhysicsEngine (Some three_circles) true)) = [] /\
  snd (deliver_all (fun _ w => w) [tick None; tick None]
         (engine_clear (mkPhysicsEngine (Some three_circles) true)) [])
  = [].
Proof.
  split; [split; [reflexivity|exact three_circles_are_distinct]|].
  pose proof (clear_takes_every_body_out (fun _ w => w)
                (mkPhysicsEngine (Some three_circles) true) three_circles []
                eq_refl three_circles_are_distinct) as H.
  cbv zeta in H. destruct H as (Hg & Hev & _).
  split; [exact Hg|]. exact (proj2 (Hev [tick None; tick None])).
Defined.

(** ** Coincident centers on concrete scenes *)

Lemma two_circles_are_coincident :
  coincident (heap two_circles 0%nat) (heap two_circles 1%nat).
Proof.
  assert (Hd : dist_of (heap two_circles 0%nat) (heap two_circles 1%nat) = 0%R).
  { rewrite dist_of_R. unfold two_circles, scene. simpl.
    replace ((0 - 0) * (0 - 0) + (0 - 0) * (0 - 0))%R with 0%R by ring.
    apply sqrt_0. }
  repeat split. change (Reqb (dist_of (heap two_circles 0%nat) (heap two_circles 1%nat)) 0 = true).
  apply Reqb_true. exact Hd.
Qed.

Lemma heavy_circles_are_coincident :
  coincident (heap heavy_circles 0) (heap heavy_circles 1) /\
  coincident (heap checked_heavy_circles 0) (heap checked_heavy_circles 1) /\
  Body_defined (heap checked_heavy_circles 0) /\
  Body_defined (heap checked_heavy_circles 1).
Proof.
  unfold coincident, Body_defined, Vec2_defined, defined.
  repeat split; try (vm_compute; reflexivity); vm_compute; eexists; reflexivity.
Qed.

(** Witness of C7: two circles of mass [2^1023] at the same place, in
    binary64 and in checked binary64, and two circles of mass 1 at the
    same place over the reals, which end [0.2 * 2] apart. *)
Lemma coincident_circles_are_resolved :
  (coincident (heap heavy_circles 0) (heap heavy_circles 1) /\
   exists w',
     World__collide (fun _ w => w) (Some 0) (Some 1) (heavy_circles, [])
     = Ok tt (w', [] ++ [Collided (Some 0) (Some 1);
                         Dispatched (mkCollisionEvent 0 1 (mkVec2 1%float 0%float)
                                       (penetration_of (heap heavy_circles 0)
                                          (heap heavy_circles 1)))])) /\
  ((0 <> 1 /\
    coincident (heap checked_heavy_circles 0) (heap checked_heavy_circles 1) /\
    Body_defined (heap checked_heavy_circles 0) /\
    Body_defined (heap checked_heavy_circles 1)) /\
   Vec2_defined
     (position
        (heap (World__resolveCollision 0 1 (mkVec2 (Some 1%float) (Some 0%float))
                 (penetration_of (heap checked_heavy_circles 0)
                    (heap checked_heavy_circles 1))
                 checked_heavy_circles) 0))) /\
  ((0 <> 1 /\
    coincident (heap two_circles 0%nat) (heap two_circles 1%nat) /\
    invMassSum_of (heap two_circles 0%nat) (heap two_circles 1%nat) <> 0%R) /\
   (x (position (heap (World__resolveCollision 0%nat 1%nat (mkVec2 1 0)
                         (penetration_of (heap two_circles 0%nat) (heap two_circles 1%nat))
                         two_circles) 1%nat))
    - x (position (heap (World__resolveCollision 0%nat 1%nat (mkVec2 1 0)
                           (penetration_of (heap two_circles 0%nat) (heap two_circles 1%nat))
                           two_circles) 0%nat))
    = 2 / 10 * (1 + 1))%R).
Proof.
  destruct coincident_centers_use_fallback_normal as (Hany & Hchecked & Hreal).
  destruct heavy_circles_are_coincident as (Hf & Hc & Hd0 & Hd1).
  destruct two_circles_inverse_masses as (Hs & _).
  split; [|split].
  - split; [exact Hf|]. eexists.
    exact (Hany float Num_float (fun _ w => w) heavy_circles [] 0 1 Hf).
  - split; [split; [discriminate|split; [exact Hc|split; assumption]]|].
    exact (proj1 (Hchecked float Num_float checked_heavy_circles 0 1
                    (fun E : 0 = 1 => O_S 0 E) Hc Hd0 Hd1)).
  - split; [split; [discriminate|split; [exact two_circles_are_coincident|exact Hs]]|].
    pose proof (Hreal two_circles 0 1 (fun E : 0 = 1 => O_S 0 E)
                  two_circles_are_coincident Hs) as H.
    cbv zeta in H. destruct H as (_ & _ & _ & H & _). exact H.
Defined.

(** Counterexample to C7 as stated: two circles of mass [2^1023] and radius [10] at
    the origin, at rest, every number finite. A step returns, but the
    quotient [penetration / invMassSum] overflows to [Infinity], the y
    component of the correction is [0 * Infinity], and the y coordinate of
    the first body is NaN afterwards. *)
Lemma coincident_heavy_circles_produce_nan :
  coincident (heap heavy_circles 0) (heap heavy_circles 1) /\
  position (heap heavy_circles 0) = mkVec2 0%float 0%float /\
  position (heap heavy_circles 1) = mkVec2 0%float 0%float /\
  mass (heap heavy_circles 0) = 0x1p1023%float /\
  raised (World_step (fun _ w => w) 1%float (heavy_circles, [])) = false /\
  PrimFloat.is_nan
    (y (position (heap (fst (final (World_step (fun _ w => w) 1%float
                                      (heavy_circles, [])))) 0)))
  = true.
Proof.
  split; [exact (proj1 heavy_circles_are_coincident)|].
  repeat split; vm_compute; reflexivity.
Qed.
